(** * Pets CRUD application: data-access layer and route handlers

    A shallow embedding of [topic-05-orm-peewee/database.py] and of the
    submit and delete handlers of [topic-05-orm-peewee/app.py].

    - Python values that travel in the [data] dictionaries are [pyval];
      a dictionary is a finite map from keys to values, and lives in a
      heap of objects because the data-access functions write into the
      dictionary of their caller.
    - Each table is a finite map from the primary key [id] to the other
      columns of the row, so the primary key is unique by construction.
    - Code that can raise runs in a state-and-exception monad over the
      [world] (object heap and the three tables).  A statement that
      raises leaves the tables as they were: SQLite undoes a failing
      statement.
    - Foreign keys are enforced: [initialize] issues
      [PRAGMA foreign_keys = 1] and both references of [Pet] are declared
      [on_delete="RESTRICT"].  Every statement runs on the connection
      that [initialize] opened.
    - Integers are [Z]; identifiers and ages are taken in the range of an
      SQLite INTEGER.
    - Standard output (the [print] calls of the get-all functions) is not
      modelled. *)

From Stdlib Require Import ZArith Lia Ascii String.
From stdpp Require Import base option list strings pretty gmap fin_maps.

Local Open Scope Z_scope.
Local Open Scope string_scope.

(** ** Python values and [int()] *)

Inductive pyval :=
  | PNone
  | PInt (z : Z)
  | PStr (s : string).

Global Instance pyval_eq_dec : EqDecision pyval.
Proof. solve_decision. Defined.

(** ASCII white space as [int()] strips it: tab, line feed, vertical tab,
    form feed, carriage return and space. *)
Definition is_space (c : ascii) : bool :=
  let n := Ascii.nat_of_ascii c in
  (((9 <=? n) && (n <=? 13)) || (n =? 32))%nat.

Definition digit_of (c : ascii) : option Z :=
  let n := Ascii.nat_of_ascii c in
  if ((48 <=? n) && (n <=? 57))%nat then Some (Z.of_nat n - 48) else None.

(** Decimal digits, where a single underscore may separate two digits.
    [after_digit] tells whether the previous character was a digit. *)
Fixpoint int_digits (acc : Z) (after_digit : bool) (l : list ascii) : option Z :=
  match l with
  | [] => if after_digit then Some acc else None
  | c :: l' =>
      match digit_of c with
      | Some d => int_digits (10 * acc + d) true l'
      | None =>
          if Ascii.eqb c "_"%char && after_digit
          then int_digits acc false l'
          else None
      end
  end.

Fixpoint lstrip (l : list ascii) : list ascii :=
  match l with
  | c :: l' => if is_space c then lstrip l' else l
  | [] => []
  end.

Definition strip (l : list ascii) : list ascii :=
  reverse (lstrip (reverse (lstrip l))).

(** [int(s)] on an ASCII string: [None] stands for [ValueError]. *)
Definition int_of_str (s : string) : option Z :=
  match strip (list_ascii_of_string s) with
  | "-"%char :: l => Z.opp <$> int_digits 0 false l
  | "+"%char :: l => int_digits 0 false l
  | l => int_digits 0 false l
  end.

(** ** Exceptions *)

Inductive exn :=
  | KeyError (key : string)
  | ValueError (literal : string)
  | TypeError (msg : string)
  | IntegrityError (msg : string)
  | OperationalError (msg : string)
  | DoesNotExist (model : string).

(** [str(e)].  For [DoesNotExist] the ORM appends the text of the query;
    only the first line is kept. *)
Definition str (e : exn) : string :=
  match e with
  | KeyError k => "'" +:+ k +:+ "'"
  | ValueError s => "invalid literal for int() with base 10: '" +:+ s +:+ "'"
  | TypeError m => m
  | IntegrityError m => m
  | OperationalError m => m
  | DoesNotExist m => "<Model: " +:+ m +:+ "> instance matching query does not exist"
  end.

Definition fk_failed : exn := IntegrityError "FOREIGN KEY constraint failed".
Definition not_null_failed (column : string) : exn :=
  IntegrityError ("NOT NULL constraint failed: " +:+ column).

(** ** Rows, tables and the world *)

Abbreviation dict := (gmap string pyval).
Abbreviation loc := positive.

(** [class Kind]: [name], [food] (nullable), [sound] (nullable). *)
Record Kind := mkKind {
  kind_name : string;
  kind_food : option string;
  kind_sound : option string }.

(** [class Owner]: [name], [address] (nullable). *)
Record Owner := mkOwner {
  owner_name : string;
  owner_address : option string }.

(** [class Pet]: [name], [age] (nullable), [kind] and [owner], the keys of
    the referenced rows. *)
Record Pet := mkPet {
  pet_name : string;
  pet_age : option Z;
  pet_kind_id : Z;
  pet_owner_id : Z }.

Record world := mkWorld {
  heap : gmap loc dict;
  kinds : gmap Z Kind;
  owners : gmap Z Owner;
  pets : gmap Z Pet }.

Definition set_heap (h : gmap loc dict) (w : world) : world :=
  mkWorld h (kinds w) (owners w) (pets w).
Definition set_kinds (t : gmap Z Kind) (w : world) : world :=
  mkWorld (heap w) t (owners w) (pets w).
Definition set_owners (t : gmap Z Owner) (w : world) : world :=
  mkWorld (heap w) (kinds w) t (pets w).
Definition set_pets (t : gmap Z Pet) (w : world) : world :=
  mkWorld (heap w) (kinds w) (owners w) t.

(** The tables of two worlds agree (their heaps may differ). *)
Definition same_tables (w w' : world) : Prop :=
  kinds w' = kinds w ∧ owners w' = owners w ∧ pets w' = pets w.

(** ** The state-and-exception monad *)

Inductive outcome (A : Type) :=
  | Ok (a : A)
  | Raise (e : exn).
Arguments Ok {A} a.
Arguments Raise {A} e.

Definition M (A : Type) : Type := world → outcome A * world.

Global Instance M_ret : MRet M := λ A a w, (Ok a, w).
Global Instance M_bind : MBind M := λ A B f m w,
  match m w with
  | (Ok a, w') => f a w'
  | (Raise e, w') => (Raise e, w')
  end.

Definition raise {A} (e : exn) : M A := λ w, (Raise e, w).
Definition get_world : M world := λ w, (Ok w, w).
Definition modify (f : world → world) : M unit := λ w, (Ok (), f w).

(** [try: body / except Exception as e: handler e]. *)
Definition try_except {A} (body : M A) (handler : exn → M A) : M A := λ w,
  match body w with
  | (Ok a, w') => (Ok a, w')
  | (Raise e, w') => handler e w'
  end.

(** ** Operations on dictionary objects *)

(** The dictionary at a location; a location never written holds [{}]. *)
Definition deref (l : loc) (w : world) : dict := default ∅ (heap w !! l).

(** [data[key]] *)
Definition getitem (l : loc) (key : string) : M pyval := λ w,
  match deref l w !! key with
  | Some v => (Ok v, w)
  | None => (Raise (KeyError key), w)
  end.

(** [data[key] = v] *)
Definition setitem (l : loc) (key : string) (v : pyval) : M unit :=
  modify (λ w, set_heap (<[l := <[key := v]> (deref l w)]> (heap w)) w).

(** [int(v)] *)
Definition int (v : pyval) : M Z :=
  match v with
  | PInt z => mret z
  | PStr s => match int_of_str s with
              | Some z => mret z
              | None => raise (ValueError s)
              end
  | PNone => raise (TypeError
      "int() argument must be a string, a bytes-like object or a real number, not 'NoneType'")
  end.

(** ** What the ORM and SQLite do with a value bound to a column *)

(** [CharField]: [None] is NULL, text is kept, an integer is written out
    in decimal. *)
Definition char_value (v : pyval) : option string :=
  match v with
  | PNone => None
  | PStr s => Some s
  | PInt z => Some (pretty z)
  end.

(** [IntegerField] and the integer key of a [ForeignKeyField]: [None] is
    NULL, an integer is kept, text goes through [int()].  Text that
    [int()] rejects denotes no integer. *)
Definition int_value (v : pyval) : option Z :=
  match v with
  | PNone => None
  | PInt z => Some z
  | PStr s => int_of_str s
  end.

Definition str_val (o : option string) : pyval := from_option PStr PNone o.
Definition int_val (o : option Z) : pyval := from_option PInt PNone o.

(** [AutoField]: a new row gets the largest key in use plus one, and 1 in
    an empty table. *)
Definition next_id {A} (t : gmap Z A) : Z :=
  1 + map_fold (λ k _ acc, Z.max k acc) 0 t.

(** NOT NULL on a column. *)
Definition not_null {A} (column : string) (o : option A) : M A :=
  match o with
  | Some a => mret a
  | None => raise (not_null_failed column)
  end.

(** NOT NULL on a foreign-key column, checked when the row is built. *)
Definition not_none (column : string) (v : pyval) : M unit :=
  if decide (v = PNone) then raise (not_null_failed column) else mret ().

(** The foreign-key check on a child column: the value must be the key
    of a row of the parent table. *)
Definition parent_key {A} (parent : world → gmap Z A) (v : pyval) : M Z :=
  w ← get_world;
  match int_value v with
  | Some k => if decide (is_Some (parent w !! k)) then mret k else raise fk_failed
  | None => raise fk_failed
  end.

(** Is the row [id] of a parent table referenced by a [Pet]? *)
Definition kind_in_use (id : Z) (w : world) : Prop :=
  map_Exists (λ _ p, pet_kind_id p = id) (pets w).
Definition owner_in_use (id : Z) (w : world) : Prop :=
  map_Exists (λ _ p, pet_owner_id p = id) (pets w).

Global Instance kind_in_use_dec id w : Decision (kind_in_use id w).
Proof. unfold kind_in_use. apply _. Defined.
Global Instance owner_in_use_dec id w : Decision (owner_in_use id w).
Proof. unfold owner_in_use. apply _. Defined.

(** What a get-one function returns: a dictionary or a string. *)
Inductive pyobj :=
  | ODict (d : dict)
  | OStr (s : string).

Module database.

(** [Pet.create(name=, age=, kind=, owner=)] *)
Definition Pet_create (name age kind owner : pyval) : M unit :=
  n ← not_null "pet.name" (char_value name);
  _ ← not_none "pet.kind_id" kind;
  _ ← not_none "pet.owner_id" owner;
  k ← parent_key kinds kind;
  o ← parent_key owners owner;
  modify (λ w, set_pets (<[next_id (pets w) := mkPet n (int_value age) k o]> (pets w)) w).

(** [Kind.create(name=, food=, sound=)] *)
Definition Kind_create (name food sound : pyval) : M unit :=
  n ← not_null "kind.name" (char_value name);
  modify (λ w, set_kinds
    (<[next_id (kinds w) := mkKind n (char_value food) (char_value sound)]> (kinds w)) w).

(** [Owner.create(name=, address=)] *)
Definition Owner_create (name address : pyval) : M unit :=
  n ← not_null "owner.name" (char_value name);
  modify (λ w, set_owners
    (<[next_id (owners w) := mkOwner n (char_value address)]> (owners w)) w).

(** [Pet.update(name=, age=, kind=, owner=).where(Pet.id == id).execute()]:
    without a row [id] the statement touches nothing and checks nothing. *)
Definition Pet_update (id : Z) (name age kind owner : pyval) : M unit :=
  w ← get_world;
  match pets w !! id with
  | None => mret ()
  | Some _ =>
      n ← not_null "pet.name" (char_value name);
      _ ← not_none "pet.kind_id" kind;
      _ ← not_none "pet.owner_id" owner;
      k ← parent_key kinds kind;
      o ← parent_key owners owner;
      modify (λ w, set_pets (<[id := mkPet n (int_value age) k o]> (pets w)) w)
  end.

(** [Kind.update(name=, food=, sound=).where(Kind.id == id).execute()] *)
Definition Kind_update (id : Z) (name food sound : pyval) : M unit :=
  w ← get_world;
  match kinds w !! id with
  | None => mret ()
  | Some _ =>
      n ← not_null "kind.name" (char_value name);
      modify (λ w, set_kinds
        (<[id := mkKind n (char_value food) (char_value sound)]> (kinds w)) w)
  end.

(** [Owner.update(name=, address=).where(Owner.id == id).execute()] *)
Definition Owner_update (id : Z) (name address : pyval) : M unit :=
  w ← get_world;
  match owners w !! id with
  | None => mret ()
  | Some _ =>
      n ← not_null "owner.name" (char_value name);
      modify (λ w, set_owners (<[id := mkOwner n (char_value address)]> (owners w)) w)
  end.



(** One row of the join of [get_pets]. *)
Definition pet_dict (id : Z) (p : Pet) (k : Kind) (o : Owner) : dict :=
  {[ "id" := PInt id;
     "name" := PStr (pet_name p);
     "age" := int_val (pet_age p);
     "kind_name" := PStr (kind_name k);
     "food" := str_val (kind_food k);
     "sound" := str_val (kind_sound k);
     "owner" := PStr (owner_name o) ]}.

(** [Pet.select(...).join(Kind).switch(Pet).join(Owner)]: inner joins on
    the two foreign keys. *)
Definition get_pets : M (list dict) :=
  w ← get_world;
  mret ('(id, p) ← map_to_list (pets w);
        k ← option_list (kinds w !! pet_kind_id p);
        o ← option_list (owners w !! pet_owner_id p);
        [pet_dict id p k o]).

Definition kind_dict (id : Z) (k : Kind) : dict :=
  {[ "id" := PInt id; "name" := PStr (kind_name k);
     "food" := str_val (kind_food k); "sound" := str_val (kind_sound k) ]}.

Definition owner_dict (id : Z) (o : Owner) : dict :=
  {[ "id" := PInt id; "name" := PStr (owner_name o);
     "address" := str_val (owner_address o) ]}.

Definition get_kinds : M (list dict) :=
  w ← get_world; mret (uncurry kind_dict <$> map_to_list (kinds w)).

Definition get_owners : M (list dict) :=
  w ← get_world; mret (uncurry owner_dict <$> map_to_list (owners w)).


Definition get_kind (id : Z) : M pyobj :=
  w ← get_world;
  match kinds w !! id with
  | Some kind => mret (ODict (kind_dict id kind))
  | None => mret (OStr "Data not found.")
  end.

Definition get_owner (id : Z) : M pyobj :=
  w ← get_world;
  match owners w !! id with
  | Some owner => mret (ODict (owner_dict id owner))
  | None => mret (OStr "Data not found")
  end.

(** The [try] / [except Exception] block that opens [create_pet] and
    [update_pet]. *)
Definition coerce_age (data : loc) : M unit :=
  try_except
    (v ← getitem data "age"; z ← int v; setitem data "age" (PInt z))
    (λ _, setitem data "age" (PInt 0)).

Definition create_pet (data : loc) : M unit :=
  _ ← coerce_age data;
  name ← getitem data "name";
  age ← getitem data "age";
  kind ← getitem data "kind_id";
  owner ← getitem data "owner_id";
  Pet_create name age kind owner.

Definition create_kind (data : loc) : M unit :=
  name ← getitem data "name";
  food ← getitem data "food";
  sound ← getitem data "sound";
  Kind_create name food sound.

Definition create_owner (data : loc) : M unit :=
  name ← getitem data "name";
  address ← getitem data "address";
  Owner_create name address.

Definition update_pet (id : Z) (data : loc) : M unit :=
  _ ← coerce_age data;
  name ← getitem data "name";
  age ← getitem data "age";
  kind ← getitem data "kind_id";
  owner ← getitem data "owner_id";
  Pet_update id name age kind owner.

Definition update_kind (id : Z) (data : loc) : M unit :=
  name ← getitem data "name";
  food ← getitem data "food";
  sound ← getitem data "sound";
  Kind_update id name food sound.

Definition update_owner (id : Z) (data : loc) : M unit :=
  name ← getitem data "name";
  address ← getitem data "address";
  Owner_update id name address.

Definition delete_pet (id : Z) : M unit :=
  modify (λ w, set_pets (delete id (pets w)) w).

(** [on_delete="RESTRICT"]: the statement fails when the row it would
    delete is referenced by a [Pet]. *)
Definition delete_kind (id : Z) : M unit :=
  w ← get_world;
  if decide (is_Some (kinds w !! id) ∧ kind_in_use id w)
  then raise fk_failed
  else modify (λ w, set_kinds (delete id (kinds w)) w).

Definition delete_owner (id : Z) : M unit :=
  w ← get_world;
  if decide (is_Some (owners w !! id) ∧ owner_in_use id w)
  then raise fk_failed
  else modify (λ w, set_owners (delete id (owners w)) w).

End database.

Module app.

Inductive url :=
  | url_for (endpoint : string).

Inductive response :=
  | Redirect (location : url) (code : Z)
  | Rendered (template : string) (context : list (string * string)).

(** [redirect(location)]: the status code defaults to 302. *)
Definition redirect (location : url) : response := Redirect location 302.
Definition render_template (template : string) (context : list (string * string))
  : response := Rendered template context.

(** [dict(request.form)]: a new dictionary object holding the form fields. *)
Definition dict_of_form (form : gmap string string) : M loc := λ w,
  let l := fresh (dom (heap w)) in
  (Ok l, set_heap (<[l := PStr <$> form]> (heap w)) w).

(** The functions that [app.py] reaches through [import database]. *)
Record DataAccess := {
  create_pet : loc → M unit;
  create_kind : loc → M unit;
  create_owner : loc → M unit;
  update_pet : Z → loc → M unit;
  update_kind : Z → loc → M unit;
  update_owner : Z → loc → M unit;
  delete_pet : Z → M unit;
  delete_kind : Z → M unit;
  delete_owner : Z → M unit }.

(** The [<id>] segment of the path reaches the query as text and the
    primary-key field reads it with [int()]; the handlers are given the
    integer it denotes. *)
Section handlers.
Context (database : DataAccess).

Definition post_create (form : gmap string string) : M response :=
  data ← dict_of_form form;
  _ ← create_pet database data;
  mret (redirect (url_for "get_list")).

Definition get_delete (id : Z) : M response :=
  _ ← delete_pet database id;
  mret (redirect (url_for "get_list")).

Definition post_update (id : Z) (form : gmap string string) : M response :=
  data ← dict_of_form form;
  _ ← update_pet database id data;
  mret (redirect (url_for "get_list")).

Definition post_kind_create (form : gmap string string) : M response :=
  data ← dict_of_form form;
  _ ← create_kind database data;
  mret (redirect (url_for "get_kind_list")).

Definition get_kind_delete (id : Z) : M response :=
  caught ← try_except
    (_ ← delete_kind database id; mret None)
    (λ e, mret (Some (render_template "error.html" [("error_text", str e)])));
  match caught with
  | Some view => mret view
  | None => mret (redirect (url_for "get_kind_list"))
  end.

Definition post_kind_update (id : Z) (form : gmap string string) : M response :=
  data ← dict_of_form form;
  _ ← update_kind database id data;
  mret (redirect (url_for "get_kind_list")).

Definition post_owner_create (form : gmap string string) : M response :=
  data ← dict_of_form form;
  _ ← create_owner database data;
  mret (redirect (url_for "get_owner_list")).

Definition post_owner_update (id : Z) (form : gmap string string) : M response :=
  data ← dict_of_form form;
  _ ← update_owner database id data;
  mret (redirect (url_for "get_owner_list")).

Definition get_owner_delete (id : Z) : M response :=
  caught ← try_except
    (_ ← delete_owner database id; mret None)
    (λ e, mret (Some (render_template "error.html" [("error_text", str e)])));
  match caught with
  | Some view => mret view
  | None => mret (redirect (url_for "get_owner_list"))
  end.
End handlers.

(** [import database] *)
Definition database : DataAccess := {|
  create_pet := database.create_pet;
  create_kind := database.create_kind;
  create_owner := database.create_owner;
  update_pet := database.update_pet;
  update_kind := database.update_kind;
  update_owner := database.update_owner;
  delete_pet := database.delete_pet;
  delete_kind := database.delete_kind;
  delete_owner := database.delete_owner |}.

End app.

(** ** States of the database *)

(** A call of the data-access layer that writes. *)
Inductive call :=
  | CreatePet (data : loc)
  | CreateKind (data : loc)
  | CreateOwner (data : loc)
  | UpdatePet (id : Z) (data : loc)
  | UpdateKind (id : Z) (data : loc)
  | UpdateOwner (id : Z) (data : loc)
  | DeletePet (id : Z)
  | DeleteKind (id : Z)
  | DeleteOwner (id : Z).

Definition run (c : call) : M unit :=
  match c with
  | CreatePet data => database.create_pet data
  | CreateKind data => database.create_kind data
  | CreateOwner data => database.create_owner data
  | UpdatePet id data => database.update_pet id data
  | UpdateKind id data => database.update_kind id data
  | UpdateOwner id data => database.update_owner id data
  | DeletePet id => database.delete_pet id
  | DeleteKind id => database.delete_kind id
  | DeleteOwner id => database.delete_owner id
  end.

(** The worlds that calls of the data-access layer lead to from empty
    tables, whatever they return and whatever dictionaries the callers
    build in between. *)
Inductive reachable : world → Prop :=
  | reach_empty h : reachable (mkWorld h ∅ ∅ ∅)
  | reach_call c w : reachable w → reachable (run c w).2
  | reach_heap h w : reachable w → reachable (set_heap h w).

(** Every [Pet] references an existing [Kind] and an existing [Owner]. *)
Definition ref_integrity (w : world) : Prop :=
  map_Forall (λ _ p, is_Some (kinds w !! pet_kind_id p)
                     ∧ is_Some (owners w !! pet_owner_id p)) (pets w).

(** The integer that [create_pet] and [update_pet] store as age. *)
Definition coerced_age (d : dict) : Z :=
  default 0 (d !! "age" ≫= int_value).

(** The world once the age of the dictionary at [l] has been coerced. *)
Definition aged (l : loc) (w : world) : world :=
  set_heap (<[l := <["age" := PInt (coerced_age (deref l w))]> (deref l w)]> (heap w)) w.

(** ** Running the monad *)

Ltac unfold_M :=
  repeat progress
    (unfold mbind, M_bind, mret, M_ret, raise, get_world, modify, try_except,
       getitem, setitem, not_null, not_none, parent_key; simpl).

(** ** A small database

    One kind, one owner and one pet, built by the data-access layer from
    dictionaries of form fields; the age of the pet is not a number. *)

Definition dog : dict :=
  {[ "name" := PStr "dog"; "food" := PStr "dogfood"; "sound" := PStr "bark" ]}.
Definition greg : dict :=
  {[ "name" := PStr "Greg"; "address" := PStr "1365 Maple Ave." ]}.
Definition dorothy : dict :=
  {[ "name" := PStr "dorothy"; "age" := PStr "nine";
     "kind_id" := PStr "1"; "owner_id" := PStr "1" ]}.

Definition heidi : dict :=
  {[ "name" := PStr "heidi"; "age" := PStr "old";
     "kind_id" := PStr "1"; "owner_id" := PInt 1 ]}.

Definition fresh_world : world :=
  mkWorld {[ 1%positive := dog; 2%positive := greg; 3%positive := dorothy;
             4%positive := heidi ]} ∅ ∅ ∅.

Definition demo_calls : list call :=
  [CreateKind 1; CreateOwner 2; CreatePet 3].

Definition run_all (cs : list call) (w : world) : world :=
  foldl (λ w c, (run c w).2) w cs.

Definition demo_world : world := run_all demo_calls fresh_world.

(** The fields of a pet form, as a browser submits them. *)
Definition rex_form : gmap string string :=
  {[ "name" := "rex"; "age" := "3"; "kind_id" := "1"; "owner_id" := "1" ]}.

(** A data-access layer whose [delete_pet] fails as a locked database
    does. *)
Definition locked : app.DataAccess := {|
  app.create_pet := database.create_pet;
  app.create_kind := database.create_kind;
  app.create_owner := database.create_owner;
  app.update_pet := database.update_pet;
  app.update_kind := database.update_kind;
  app.update_owner := database.update_owner;
  app.delete_pet := λ _, raise (OperationalError "database is locked");
  app.delete_kind := database.delete_kind;
  app.delete_owner := database.delete_owner |}.

(** The rows that the join of [get_pets] makes of one pet. *)
Definition joined (w : world) (row : Z * Pet) : list dict :=
  k ← option_list (kinds w !! pet_kind_id row.2);
  o ← option_list (owners w !! pet_owner_id row.2);
  [database.pet_dict row.1 row.2 k o].

(** ** The read handlers of [app.py] *)

Module app_get.

(** What a template is given under a name: the rows of a get-all
    function, or what a get-one function returned. *)
Inductive value :=
  | Rows (l : list dict)
  | Object (o : pyobj).

Inductive page :=
  | Page (template : string) (context : list (string * value)).

Definition render_template (template : string) (context : list (string * value))
  : page := Page template context.










End app_get.

(** ** The self-test of [database.py] *)

(** An [assert] that fails raises [AssertionError]; the message of the
    field checks names the field and shows the dictionary. *)
Inductive failure :=
  | AssertionError (detail : option (string * dict))
  | Error (e : exn).

Inductive verdict (A : Type) :=
  | Passed (a : A)
  | Failed (f : failure).
Arguments Passed {A} a.
Arguments Failed {A} f.

Definition T (A : Type) : Type := world → verdict A * world.

Global Instance T_ret : MRet T := λ A a w, (Passed a, w).
Global Instance T_bind : MBind T := λ A B f m w,
  match m w with
  | (Passed a, w') => f a w'
  | (Failed x, w') => (Failed x, w')
  end.

(** A call of the data-access layer inside a test. *)
Definition lift {A} (m : M A) : T A := λ w,
  match m w with
  | (Ok a, w') => (Passed a, w')
  | (Raise e, w') => (Failed (Error e), w')
  end.

(** [assert cond] and [assert cond, message]. *)
Definition assert_ (cond : bool) (detail : option (string * dict)) : T unit := λ w,
  if cond then (Passed (), w) else (Failed (AssertionError detail), w).

(** [for x in xs: body x] *)
Fixpoint for_ {A} (xs : list A) (body : A → T unit) : T unit :=
  match xs with
  | [] => mret ()
  | x :: xs' => _ ← body x; for_ xs' body
  end.

(** [isinstance(v, int)] and [isinstance(v, str)] *)
Definition is_int (v : pyval) : bool :=
  match v with PInt _ => true | _ => false end.
Definition is_str (v : pyval) : bool :=
  match v with PStr _ => true | _ => false end.

(** [d[key]] on a dictionary that a get-all function returned. *)
Definition item (d : dict) (key : string) : T pyval :=
  match d !! key with
  | Some v => mret v
  | None => lift (raise (KeyError key))
  end.

(** A dictionary display: a new dictionary object. *)
Definition new_dict (d : dict) : M loc := λ w,
  let l := fresh (dom (heap w)) in
  (Ok l, set_heap (<[l := d]> (heap w)) w).

(** [Owner.create(name=, address=)] with the [id] of the instance it
    returns. *)
Definition Owner_create_id (name address : pyval) : M Z :=
  w ← get_world;
  _ ← database.Owner_create name address;
  mret (next_id (owners w)).

(** [initialize("test_pets.db")], [db.drop_tables([Pet, Kind, Owner])]
    and [db.create_tables([Kind, Owner, Pet])]: whatever the file held,
    the three tables are there and empty. *)
Definition recreate_tables : M unit :=
  modify (λ w, mkWorld (heap w) ∅ ∅ ∅).

(** The structure checks that the three tests share: the list is not
    empty and its first dictionary has every field; the [isinstance]
    checks on a list and on a dictionary hold by typing. *)
Definition first_row (rows : list dict) (fields : list string) : T dict :=
  match rows with
  | [] => _ ← assert_ false None; mret ∅
  | row :: _ =>
      _ ← for_ fields (λ field,
            assert_ (bool_decide (is_Some (row !! field))) (Some (field, row)));
      mret row
  end.

Definition setup_test_database : T unit :=
  _ ← lift recreate_tables;
  _ ← lift (database.Kind_create (PStr "dog") (PStr "dogfood") (PStr "bark"));
  _ ← lift (database.Kind_create (PStr "cat") (PStr "catfood") (PStr "meow"));
  greg ← lift (Owner_create_id (PStr "Greg") (PStr "1365 Maple Ave."));
  david ← lift (Owner_create_id (PStr "David") (PStr "13 Elm St."));
  p1 ← lift (new_dict {[ "name" := PStr "dorothy"; "kind_id" := PInt 1;
                         "age" := PInt 9; "owner_id" := PInt greg ]});
  p2 ← lift (new_dict {[ "name" := PStr "suzy"; "kind_id" := PInt 1;
                         "age" := PInt 9; "owner_id" := PInt greg ]});
  p3 ← lift (new_dict {[ "name" := PStr "casey"; "kind_id" := PInt 2;
                         "age" := PInt 9; "owner_id" := PInt greg ]});
  p4 ← lift (new_dict {[ "name" := PStr "heidi"; "kind_id" := PInt 2;
                         "age" := PInt 15; "owner_id" := PInt david ]});
  _ ← for_ [p1; p2; p3; p4] (λ pet_data, lift (database.create_pet pet_data));
  pets ← lift database.get_pets;
  assert_ (bool_decide (length pets = 4%nat)) None.

Definition test_get_pets : T unit :=
  pets ← lift database.get_pets;
  pet ← first_row pets ["id"; "name"; "age"; "owner"; "kind_name"; "food"; "sound"];
  id ← item pet "id";
  _ ← assert_ (is_int id) None;
  name ← item pet "name";
  assert_ (is_str name) None.

Definition test_get_kinds : T unit :=
  kinds ← lift database.get_kinds;
  kind ← first_row kinds ["id"; "name"; "food"; "sound"];
  id ← item kind "id";
  _ ← assert_ (is_int id) None;
  name ← item kind "name";
  assert_ (is_str name) None.

Definition test_get_owners : T unit :=
  owners ← lift database.get_owners;
  owner ← first_row owners ["id"; "name"; "address"];
  id ← item owner "id";
  _ ← assert_ (is_int id) None;
  name ← item owner "name";
  _ ← assert_ (is_str name) None;
  address ← item owner "address";
  assert_ (is_str address) None.

(** [test_create_pet] is a placeholder. *)
Definition test_create_pet : T unit := mret ().

(** The block under [if __name__ == "__main__"]. *)
Definition main : T unit :=
  _ ← setup_test_database;
  _ ← test_get_pets;
  _ ← test_get_kinds;
  _ ← test_get_owners;
  test_create_pet.

(** * Properties *)

Lemma set_kinds_id w : set_kinds (kinds w) w = w.
Proof. by destruct w. Qed.
Lemma set_owners_id w : set_owners (owners w) w = w.
Proof. by destruct w. Qed.

Lemma int_Some v z w : int_value v = Some z → int v w = (Ok z, w).
Proof. destruct v; simpl; intros H; simplify_eq; [done|]. by rewrite H. Qed.

Lemma int_None v w : int_value v = None → ∃ e, int v w = (Raise e, w).
Proof.
  destruct v; simpl; intros H; simplify_eq; [by eexists|].
  rewrite H. by eexists.
Qed.

Lemma deref_aged l w :
  deref l (aged l w) = <["age" := PInt (coerced_age (deref l w))]> (deref l w).
Proof. unfold deref, aged. simpl. by rewrite lookup_insert_eq. Qed.

Lemma deref_aged_ne l l' w : l ≠ l' → heap (aged l w) !! l' = heap w !! l'.
Proof. intros. unfold aged. simpl. by rewrite lookup_insert_ne. Qed.

Lemma coerce_age_run l w : database.coerce_age l w = (Ok (), aged l w).
Proof.
  unfold database.coerce_age, aged, coerced_age. unfold_M.
  destruct (deref l w !! "age") as [v|] eqn:Hv; simpl; [|done].
  destruct (int_value v) as [z|] eqn:Hz; simpl.
  - by rewrite (int_Some _ _ _ Hz).
  - destruct (int_None v w Hz) as [e ->]. done.
Qed.

Lemma getitem_aged l w key :
  key ≠ "age" → getitem l key (aged l w) =
    match deref l w !! key with
    | Some v => (Ok v, aged l w)
    | None => (Raise (KeyError key), aged l w)
    end.
Proof.
  intros Hk. unfold getitem. rewrite deref_aged, lookup_insert_ne by done. done.
Qed.

Lemma getitem_aged_age l w :
  getitem l "age" (aged l w) = (Ok (PInt (coerced_age (deref l w))), aged l w).
Proof. unfold getitem. by rewrite deref_aged, lookup_insert_eq. Qed.

(** [next_id] is a key that the table does not use yet. *)
Lemma next_id_bound {A} (t : gmap Z A) k : is_Some (t !! k) → k < next_id t.
Proof.
  intros [x Hx]. unfold next_id. rewrite map_fold_foldr.
  apply elem_of_map_to_list in Hx.
  induction (map_to_list t) as [|[k' x'] l IH]; [by apply elem_of_nil in Hx|].
  apply elem_of_cons in Hx as [Hx|Hx]; simpl in *.
  - simplify_eq. lia.
  - specialize (IH Hx). lia.
Qed.

Lemma next_id_fresh {A} (t : gmap Z A) : t !! next_id t = None.
Proof.
  destruct (t !! next_id t) eqn:H; [|done].
  assert (next_id t < next_id t) by (apply next_id_bound; eauto). lia.
Qed.

(** ** The statements the ORM issues *)

Lemma Pet_create_ok name age kind owner w n k o :
  char_value name = Some n →
  int_value kind = Some k → is_Some (kinds w !! k) →
  int_value owner = Some o → is_Some (owners w !! o) →
  database.Pet_create name age kind owner w =
    (Ok (), set_pets (<[next_id (pets w) := mkPet n (int_value age) k o]> (pets w)) w).
Proof.
  intros Hn Hk Hk' Ho Ho'. unfold database.Pet_create. unfold_M.
  rewrite Hn. simpl.
  destruct (decide (kind = PNone)) as [->|_]; [done|].
  destruct (decide (owner = PNone)) as [->|_]; [done|].
  rewrite Hk, Ho. simpl.
  by rewrite !decide_True.
Qed.


(** A statement that writes a [Pet] row either fails and changes nothing
    or stores a row whose references exist. *)
Lemma Pet_create_cases name age kind owner w :
  (∃ e, database.Pet_create name age kind owner w = (Raise e, w))
  ∨ (∃ p, is_Some (kinds w !! pet_kind_id p) ∧ is_Some (owners w !! pet_owner_id p)
        ∧ database.Pet_create name age kind owner w =
            (Ok (), set_pets (<[next_id (pets w) := p]> (pets w)) w)).
Proof.
  unfold database.Pet_create. unfold_M.
  destruct (char_value name); simpl; [|by eauto].
  destruct (decide (kind = PNone)); [by eauto|].
  destruct (decide (owner = PNone)); [by eauto|].
  destruct (int_value kind) as [k|]; simpl; [|by eauto].
  destruct (decide (is_Some (kinds w !! k))); [|by eauto].
  destruct (int_value owner) as [o|]; simpl; [|by eauto].
  destruct (decide (is_Some (owners w !! o))); [|by eauto].
  right. by eexists (mkPet _ _ k o).
Qed.

Lemma Pet_update_cases id name age kind owner w :
  (∃ e, database.Pet_update id name age kind owner w = (Raise e, w))
  ∨ database.Pet_update id name age kind owner w = (Ok (), w)
  ∨ (∃ p, is_Some (kinds w !! pet_kind_id p) ∧ is_Some (owners w !! pet_owner_id p)
        ∧ database.Pet_update id name age kind owner w =
            (Ok (), set_pets (<[id := p]> (pets w)) w)).
Proof.
  unfold database.Pet_update. unfold_M.
  destruct (pets w !! id); [|by eauto].
  destruct (char_value name); simpl; [|by eauto].
  destruct (decide (kind = PNone)); [by eauto|].
  destruct (decide (owner = PNone)); [by eauto|].
  destruct (int_value kind) as [k|]; simpl; [|by eauto].
  destruct (decide (is_Some (kinds w !! k))); [|by eauto].
  destruct (int_value owner) as [o|]; simpl; [|by eauto].
  destruct (decide (is_Some (owners w !! o))); [|by eauto].
  right; right. by eexists (mkPet _ _ k o).
Qed.

(** The calls of [database.py] on a pet, once the age is coerced. *)
Lemma create_pet_run l w :
  database.create_pet l w =
    match deref l w !! "name", deref l w !! "kind_id", deref l w !! "owner_id" with
    | Some name, Some kind, Some owner =>
        database.Pet_create name (PInt (coerced_age (deref l w))) kind owner (aged l w)
    | None, _, _ => (Raise (KeyError "name"), aged l w)
    | Some _, None, _ => (Raise (KeyError "kind_id"), aged l w)
    | Some _, Some _, None => (Raise (KeyError "owner_id"), aged l w)
    end.
Proof.
  unfold database.create_pet.
  unfold mbind at 1, M_bind. rewrite coerce_age_run.
  unfold mbind at 1, M_bind. rewrite getitem_aged by done.
  destruct (deref l w !! "name"); [|done].
  unfold mbind at 1, M_bind. rewrite getitem_aged_age.
  unfold mbind at 1, M_bind. rewrite getitem_aged by done.
  destruct (deref l w !! "kind_id"); [|done].
  unfold mbind at 1, M_bind. rewrite getitem_aged by done.
  by destruct (deref l w !! "owner_id").
Qed.

Lemma update_pet_run id l w :
  database.update_pet id l w =
    match deref l w !! "name", deref l w !! "kind_id", deref l w !! "owner_id" with
    | Some name, Some kind, Some owner =>
        database.Pet_update id name (PInt (coerced_age (deref l w))) kind owner (aged l w)
    | None, _, _ => (Raise (KeyError "name"), aged l w)
    | Some _, None, _ => (Raise (KeyError "kind_id"), aged l w)
    | Some _, Some _, None => (Raise (KeyError "owner_id"), aged l w)
    end.
Proof.
  unfold database.update_pet.
  unfold mbind at 1, M_bind. rewrite coerce_age_run.
  unfold mbind at 1, M_bind. rewrite getitem_aged by done.
  destruct (deref l w !! "name"); [|done].
  unfold mbind at 1, M_bind. rewrite getitem_aged_age.
  unfold mbind at 1, M_bind. rewrite getitem_aged by done.
  destruct (deref l w !! "kind_id"); [|done].
  unfold mbind at 1, M_bind. rewrite getitem_aged by done.
  by destruct (deref l w !! "owner_id").
Qed.

(** ** Referential integrity is kept by every statement *)

Lemma ref_integrity_same_tables w w' :
  same_tables w w' → ref_integrity w → ref_integrity w'.
Proof. unfold ref_integrity. by intros (-> & -> & ->). Qed.

Lemma same_tables_aged l w : same_tables w (aged l w).
Proof. done. Qed.

Lemma ref_integrity_insert_pet id p w :
  is_Some (kinds w !! pet_kind_id p) → is_Some (owners w !! pet_owner_id p) →
  ref_integrity w → ref_integrity (set_pets (<[id := p]> (pets w)) w).
Proof.
  unfold ref_integrity. simpl. intros ?? Hw.
  apply map_Forall_insert_2; [done|]. exact Hw.
Qed.

Lemma ref_integrity_delete_pet id w :
  ref_integrity w → ref_integrity (set_pets (delete id (pets w)) w).
Proof. unfold ref_integrity. simpl. apply map_Forall_delete. Qed.

Lemma ref_integrity_insert_kind id k w :
  ref_integrity w → ref_integrity (set_kinds (<[id := k]> (kinds w)) w).
Proof.
  unfold ref_integrity. simpl. intros Hw pid p Hp.
  destruct (Hw pid p Hp) as [Hk Ho]. split; [|done].
  rewrite lookup_insert_is_Some. destruct (decide (id = pet_kind_id p)); auto.
Qed.

Lemma ref_integrity_insert_owner id o w :
  ref_integrity w → ref_integrity (set_owners (<[id := o]> (owners w)) w).
Proof.
  unfold ref_integrity. simpl. intros Hw pid p Hp.
  destruct (Hw pid p Hp) as [Hk Ho]. split; [done|].
  rewrite lookup_insert_is_Some. destruct (decide (id = pet_owner_id p)); auto.
Qed.

Lemma ref_integrity_delete_kind id w :
  ¬ kind_in_use id w →
  ref_integrity w → ref_integrity (set_kinds (delete id (kinds w)) w).
Proof.
  unfold ref_integrity, kind_in_use. simpl. intros Hfree Hw pid p Hp.
  destruct (Hw pid p Hp) as [Hk Ho]. split; [|done].
  rewrite lookup_delete_ne; [done|].
  intros ->. apply Hfree. by exists pid, p.
Qed.

Lemma ref_integrity_delete_owner id w :
  ¬ owner_in_use id w →
  ref_integrity w → ref_integrity (set_owners (delete id (owners w)) w).
Proof.
  unfold ref_integrity, owner_in_use. simpl. intros Hfree Hw pid p Hp.
  destruct (Hw pid p Hp) as [Hk Ho]. split; [done|].
  rewrite lookup_delete_ne; [done|].
  intros ->. apply Hfree. by exists pid, p.
Qed.

Lemma ref_integrity_delete_absent_kind id w :
  kinds w !! id = None →
  ref_integrity w → ref_integrity (set_kinds (delete id (kinds w)) w).
Proof. intros H. by rewrite delete_id, set_kinds_id. Qed.

Lemma ref_integrity_delete_absent_owner id w :
  owners w !! id = None →
  ref_integrity w → ref_integrity (set_owners (delete id (owners w)) w).
Proof. intros H. by rewrite delete_id, set_owners_id. Qed.

Lemma create_pet_integrity l w :
  ref_integrity w → ref_integrity (database.create_pet l w).2.
Proof.
  intros Hw. rewrite create_pet_run.
  pose proof (ref_integrity_same_tables _ _ (same_tables_aged l w) Hw) as Ha.
  destruct (deref l w !! "name") as [name|]; [|done].
  destruct (deref l w !! "kind_id") as [kind|]; [|done].
  destruct (deref l w !! "owner_id") as [owner|]; [|done].
  destruct (Pet_create_cases name (PInt (coerced_age (deref l w))) kind owner (aged l w))
    as [[e ->]|(p & ? & ? & ->)]; [done|].
  by apply ref_integrity_insert_pet.
Qed.

Lemma update_pet_integrity id l w :
  ref_integrity w → ref_integrity (database.update_pet id l w).2.
Proof.
  intros Hw. rewrite update_pet_run.
  pose proof (ref_integrity_same_tables _ _ (same_tables_aged l w) Hw) as Ha.
  destruct (deref l w !! "name") as [name|]; [|done].
  destruct (deref l w !! "kind_id") as [kind|]; [|done].
  destruct (deref l w !! "owner_id") as [owner|]; [|done].
  destruct (Pet_update_cases id name (PInt (coerced_age (deref l w))) kind owner (aged l w))
    as [[e ->]|[->|(p & ? & ? & ->)]]; [done..|].
  by apply ref_integrity_insert_pet.
Qed.

Lemma run_integrity c w : ref_integrity w → ref_integrity (run c w).2.
Proof.
  intros Hw. destruct c as [l|l|l|id l|id l|id l|id|id|id]; simpl.
  - by apply create_pet_integrity.
  - unfold database.create_kind, database.Kind_create. unfold_M.
    repeat case_match; simplify_eq/=; try done.
    by apply ref_integrity_insert_kind.
  - unfold database.create_owner, database.Owner_create. unfold_M.
    repeat case_match; simplify_eq/=; try done.
    by apply ref_integrity_insert_owner.
  - by apply update_pet_integrity.
  - unfold database.update_kind, database.Kind_update. unfold_M.
    repeat case_match; simplify_eq/=; try done.
    by apply ref_integrity_insert_kind.
  - unfold database.update_owner, database.Owner_update. unfold_M.
    repeat case_match; simplify_eq/=; try done.
    by apply ref_integrity_insert_owner.
  - by apply ref_integrity_delete_pet.
  - unfold database.delete_kind. unfold_M.
    case_decide as Hd; simpl; [done|].
    destruct (kinds w !! id) eqn:Hk.
    + apply ref_integrity_delete_kind; [|done]. intros ?. apply Hd. eauto.
    + by apply ref_integrity_delete_absent_kind.
  - unfold database.delete_owner. unfold_M.
    case_decide as Hd; simpl; [done|].
    destruct (owners w !! id) eqn:Hk.
    + apply ref_integrity_delete_owner; [|done]. intros ?. apply Hd. eauto.
    + by apply ref_integrity_delete_absent_owner.
Qed.

Lemma reachable_integrity w : reachable w → ref_integrity w.
Proof.
  induction 1 as [h|c w _ IH|h w _ IH].
  - unfold ref_integrity. simpl. apply map_Forall_empty.
  - by apply run_integrity.
  - exact IH.
Qed.

(** ** Specified properties *)

Lemma demo_world_reachable : reachable demo_world.
Proof.
  apply (reach_call (CreatePet 3)), (reach_call (CreateOwner 2)),
    (reach_call (CreateKind 1)), reach_empty.
Qed.

(** C1. A [Kind] (resp. an [Owner]) that some [Pet] row references cannot
    be deleted: [delete_kind] (resp. [delete_owner]) raises the
    foreign-key [IntegrityError], and the world after the call is the
    world before it, so no row of any table is added, removed or
    changed. *)
Theorem delete_referenced_fails (w : world) (id : Z) :
  (is_Some (kinds w !! id) →
   (∃ pid p, pets w !! pid = Some p ∧ pet_kind_id p = id) →
   database.delete_kind id w = (Raise fk_failed, w))
  ∧ (is_Some (owners w !! id) →
     (∃ pid p, pets w !! pid = Some p ∧ pet_owner_id p = id) →
     database.delete_owner id w = (Raise fk_failed, w)).
Proof.
  split; intros Hrow Huse.
  - unfold database.delete_kind. unfold_M. by rewrite decide_True.
  - unfold database.delete_owner. unfold_M. by rewrite decide_True.
Qed.

Lemma delete_referenced_fails_witness :
  (is_Some (kinds demo_world !! 1)
   ∧ (∃ pid p, pets demo_world !! pid = Some p ∧ pet_kind_id p = 1)
   ∧ database.delete_kind 1 demo_world = (Raise fk_failed, demo_world))
  ∧ (is_Some (owners demo_world !! 1)
     ∧ (∃ pid p, pets demo_world !! pid = Some p ∧ pet_owner_id p = 1)
     ∧ database.delete_owner 1 demo_world = (Raise fk_failed, demo_world)).
Proof.
  assert (Hk : is_Some (kinds demo_world !! 1)) by (vm_compute; eauto).
  assert (Ho : is_Some (owners demo_world !! 1)) by (vm_compute; eauto).
  assert (Hpk : ∃ pid p, pets demo_world !! pid = Some p ∧ pet_kind_id p = 1).
  { exists 1, (mkPet "dorothy" (Some 0) 1 1). by vm_compute. }
  assert (Hpo : ∃ pid p, pets demo_world !! pid = Some p ∧ pet_owner_id p = 1).
  { exists 1, (mkPet "dorothy" (Some 0) 1 1). by vm_compute. }
  destruct (delete_referenced_fails demo_world 1) as [H1 H2].
  split; (split; [done|split; [done|]]).
  - by apply H1.
  - by apply H2.
Defined.

(** C2. Referential integrity is an invariant of the data-access layer:
    in every world reached from empty tables by calls of [create_pet],
    [create_kind], [create_owner], [update_pet], [update_kind],
    [update_owner], [delete_pet], [delete_kind] and [delete_owner], the
    [kind_id] of every [Pet] row is the id of a [Kind] row and its
    [owner_id] is the id of an [Owner] row. *)
Theorem referential_integrity_invariant (w : world) :
  reachable w →
  ∀ pid p, pets w !! pid = Some p →
    is_Some (kinds w !! pet_kind_id p) ∧ is_Some (owners w !! pet_owner_id p).
Proof. intros Hw. exact (reachable_integrity w Hw). Qed.

Lemma referential_integrity_invariant_witness :
  reachable demo_world
  ∧ ∀ pid p, pets demo_world !! pid = Some p →
      is_Some (kinds demo_world !! pet_kind_id p)
      ∧ is_Some (owners demo_world !! pet_owner_id p).
Proof.
  split; [exact demo_world_reachable|].
  exact (referential_integrity_invariant demo_world demo_world_reachable).
Defined.





Lemma Pet_create_heap name age kind owner w :
  heap (database.Pet_create name age kind owner w).2 = heap w.
Proof.
  by destruct (Pet_create_cases name age kind owner w)
    as [[e ->]|(p & _ & _ & ->)].
Qed.

Lemma Pet_update_heap id name age kind owner w :
  heap (database.Pet_update id name age kind owner w).2 = heap w.
Proof.
  by destruct (Pet_update_cases id name age kind owner w)
    as [[e ->]|[->|(p & _ & _ & ->)]].
Qed.

Lemma create_pet_heap l w : heap (database.create_pet l w).2 = heap (aged l w).
Proof.
  rewrite create_pet_run.
  destruct (deref l w !! "name"); [|done].
  destruct (deref l w !! "kind_id"); [|done].
  destruct (deref l w !! "owner_id"); [|done].
  apply Pet_create_heap.
Qed.

Lemma update_pet_heap id l w :
  heap (database.update_pet id l w).2 = heap (aged l w).
Proof.
  rewrite update_pet_run.
  destruct (deref l w !! "name"); [|done].
  destruct (deref l w !! "kind_id"); [|done].
  destruct (deref l w !! "owner_id"); [|done].
  apply Pet_update_heap.
Qed.

Lemma aged_heap_spec l w w' :
  heap w' = heap (aged l w) →
  deref l w' !! "age" = Some (PInt (coerced_age (deref l w)))
  ∧ (∀ key, key ≠ "age" → deref l w' !! key = deref l w !! key)
  ∧ (∀ l', l' ≠ l → heap w' !! l' = heap w !! l').
Proof.
  intros Hh.
  assert (deref l w' = deref l (aged l w)) as -> by (unfold deref; by rewrite Hh).
  rewrite Hh, deref_aged. split; [by rewrite lookup_insert_eq|]. split.
  - intros key Hkey. by rewrite lookup_insert_ne.
  - intros l' Hl'. by apply deref_aged_ne.
Qed.



(** What a row of [get_pets] carries of a [Pet], its [Kind] and its
    [Owner]. *)
Lemma pet_dict_fields id p k o :
  database.pet_dict id p k o !! "id" = Some (PInt id)
  ∧ database.pet_dict id p k o !! "name" = Some (PStr (pet_name p))
  ∧ database.pet_dict id p k o !! "age" = Some (int_val (pet_age p))
  ∧ database.pet_dict id p k o !! "kind_name" = Some (PStr (kind_name k))
  ∧ database.pet_dict id p k o !! "food" = Some (str_val (kind_food k))
  ∧ database.pet_dict id p k o !! "sound" = Some (str_val (kind_sound k))
  ∧ database.pet_dict id p k o !! "owner" = Some (PStr (owner_name o)).
Proof. unfold database.pet_dict. repeat split; by simplify_map_eq. Qed.

(** C4. In a world that satisfies referential integrity, [get_pets]
    returns a list with one dictionary per row of the [Pet] table, and
    the dictionary of a row carries the id, name and age of the [Pet],
    the name (under ["kind_name"]), food and sound of the [Kind] it
    references and the name (under ["owner"]) of the [Owner] it
    references. *)
Theorem get_pets_rows (w : world) :
  ref_integrity w →
  ∃ rows : list dict,
    database.get_pets w = (Ok rows, w)
    ∧ length rows = size (pets w)
    ∧ Forall2 (λ (row : Z * Pet) (d : dict),
        ∃ k o,
          kinds w !! pet_kind_id row.2 = Some k
          ∧ owners w !! pet_owner_id row.2 = Some o
          ∧ d !! "id" = Some (PInt row.1)
          ∧ d !! "name" = Some (PStr (pet_name row.2))
          ∧ d !! "age" = Some (int_val (pet_age row.2))
          ∧ d !! "kind_name" = Some (PStr (kind_name k))
          ∧ d !! "food" = Some (str_val (kind_food k))
          ∧ d !! "sound" = Some (str_val (kind_sound k))
          ∧ d !! "owner" = Some (PStr (owner_name o)))
        (map_to_list (pets w)) rows.
Proof.
  intros Hw. eexists. split; [reflexivity|].
  apply map_Forall_to_list in Hw.
  rewrite <- length_map_to_list.
  induction (map_to_list (pets w)) as [|[id p] rows IH]; [by split|].
  apply Forall_cons in Hw as [[[k Hk] [o Ho]] Hw]. simpl in Hk, Ho.
  destruct (IH Hw) as [Hlen Hrows].
  rewrite bind_cons. simpl. rewrite Hk, Ho. simpl. split.
  - by rewrite Hlen.
  - constructor; [|done]. exists k, o. simpl.
    split; [done|]. split; [done|]. apply pet_dict_fields.
Qed.

Lemma get_pets_rows_witness :
  ref_integrity demo_world
  ∧ ∃ rows : list dict,
      database.get_pets demo_world = (Ok rows, demo_world)
      ∧ length rows = size (pets demo_world)
      ∧ Forall2 (λ (row : Z * Pet) (d : dict),
          ∃ k o,
            kinds demo_world !! pet_kind_id row.2 = Some k
            ∧ owners demo_world !! pet_owner_id row.2 = Some o
            ∧ d !! "id" = Some (PInt row.1)
            ∧ d !! "name" = Some (PStr (pet_name row.2))
            ∧ d !! "age" = Some (int_val (pet_age row.2))
            ∧ d !! "kind_name" = Some (PStr (kind_name k))
            ∧ d !! "food" = Some (str_val (kind_food k))
            ∧ d !! "sound" = Some (str_val (kind_sound k))
            ∧ d !! "owner" = Some (PStr (owner_name o)))
          (map_to_list (pets demo_world)) rows.
Proof.
  assert (Hw : ref_integrity demo_world).
  { apply map_Forall_to_list. vm_compute. repeat constructor; eauto. }
  split; [exact Hw|]. exact (get_pets_rows demo_world Hw).
Defined.








(** C6, as stated, fails for the [Pet] handler: [get_delete] has no
    [try], so an error that its data-access call raises leaves the
    handler as it came. *)
Lemma get_delete_lets_errors_through :
  app.delete_pet locked 1 demo_world
    = (Raise (OperationalError "database is locked"), demo_world)
  ∧ app.get_delete locked 1 demo_world
    = (Raise (OperationalError "database is locked"), demo_world).
Proof. vm_compute. repeat split. Qed.

(** C6, amended.  The delete handlers of [Kind] and [Owner] catch any
    error that their data-access call raises and return the view
    [error.html] rendered with the text of the error; when the call
    returns they redirect to the list of kinds (resp. owners).  The
    delete handler of [Pet] catches nothing: it redirects to the list of
    pets when [delete_pet] returns, and an error of [delete_pet] leaves
    the handler. *)
Theorem delete_handlers (database : app.DataAccess) (id : Z) (w : world) :
  (∀ e w', app.delete_kind database id w = (Raise e, w') →
     app.get_kind_delete database id w =
       (Ok (app.render_template "error.html" [("error_text", str e)]), w'))
  ∧ (∀ w', app.delete_kind database id w = (Ok (), w') →
       app.get_kind_delete database id w =
         (Ok (app.redirect (app.url_for "get_kind_list")), w'))
  ∧ (∀ e w', app.delete_owner database id w = (Raise e, w') →
       app.get_owner_delete database id w =
         (Ok (app.render_template "error.html" [("error_text", str e)]), w'))
  ∧ (∀ w', app.delete_owner database id w = (Ok (), w') →
       app.get_owner_delete database id w =
         (Ok (app.redirect (app.url_for "get_owner_list")), w'))
  ∧ (∀ e w', app.delete_pet database id w = (Raise e, w') →
       app.get_delete database id w = (Raise e, w'))
  ∧ (∀ w', app.delete_pet database id w = (Ok (), w') →
       app.get_delete database id w =
         (Ok (app.redirect (app.url_for "get_list")), w')).
Proof.
  unfold app.get_kind_delete, app.get_owner_delete, app.get_delete. unfold_M.
  repeat split; intros; by rewrite H.
Qed.

Lemma delete_handlers_witness :
  app.delete_kind app.database 1 demo_world = (Raise fk_failed, demo_world)
  ∧ app.get_kind_delete app.database 1 demo_world =
      (Ok (app.Rendered "error.html"
             [("error_text", "FOREIGN KEY constraint failed")]), demo_world)
  ∧ app.delete_pet app.database 1 demo_world
      = (Ok (), set_pets ∅ demo_world)
  ∧ app.get_delete app.database 1 demo_world =
      (Ok (app.Redirect (app.url_for "get_list") 302), set_pets ∅ demo_world).
Proof.
  assert (Hk : app.delete_kind app.database 1 demo_world
               = (Raise fk_failed, demo_world)) by (vm_compute; reflexivity).
  assert (Hp : app.delete_pet app.database 1 demo_world
               = (Ok (), set_pets ∅ demo_world)) by (vm_compute; reflexivity).
  destruct (delete_handlers app.database 1 demo_world)
    as (Hkind & _ & _ & _ & _ & Hpet).
  split; [exact Hk|]. split; [exact (Hkind _ _ Hk)|].
  split; [exact Hp|exact (Hpet _ Hp)].
Defined.

(** C7, as stated, fails: the form is complete, but no [Kind] row has
    id 1 yet, so [create_pet] raises, [post_create] has no [try], and the
    request ends in the error instead of a redirect. *)
Lemma post_create_unknown_kind_no_redirect :
  kinds fresh_world !! 1 = None
  ∧ (app.post_create app.database rex_form fresh_world).1 = Raise fk_failed.
Proof. vm_compute. repeat split. Qed.

(** C7, amended.  A create-submit or update-submit handler builds a
    dictionary from the form and calls the data-access function of its
    entity type on it.  When that call returns, the handler returns a
    redirect with status 302 to the list page of the entity type
    ([get_list] for [Pet], [get_kind_list] for [Kind], [get_owner_list]
    for [Owner]); when the call raises, the error leaves the handler and
    there is no redirect. *)
Theorem submit_handlers (database : app.DataAccess)
    (form : gmap string string) (id : Z) (w : world) :
  let data := fresh (dom (heap w)) in
  let w1 := set_heap (<[data := PStr <$> form]> (heap w)) w in
  let submits (call : M unit) (handler : M app.response) (page : string) :=
    ∀ out w', call w1 = (out, w') →
      handler w =
        (match out with
         | Ok _ => Ok (app.Redirect (app.url_for page) 302)
         | Raise e => Raise e
         end, w') in
  app.dict_of_form form w = (Ok data, w1)
  ∧ heap w !! data = None
  ∧ deref data w1 = PStr <$> form
  ∧ submits (app.create_pet database data)
      (app.post_create database form) "get_list"
  ∧ submits (app.update_pet database id data)
      (app.post_update database id form) "get_list"
  ∧ submits (app.create_kind database data)
      (app.post_kind_create database form) "get_kind_list"
  ∧ submits (app.update_kind database id data)
      (app.post_kind_update database id form) "get_kind_list"
  ∧ submits (app.create_owner database data)
      (app.post_owner_create database form) "get_owner_list"
  ∧ submits (app.update_owner database id data)
      (app.post_owner_update database id form) "get_owner_list".
Proof.
  intros data w1 submits. split; [reflexivity|]. split; [|split].
  - apply not_elem_of_dom, is_fresh.
  - unfold deref, w1. simpl. by rewrite lookup_insert_eq.
  - unfold submits, app.post_create, app.post_update, app.post_kind_create,
      app.post_kind_update, app.post_owner_create, app.post_owner_update.
    unfold mbind, M_bind, app.dict_of_form. fold data. fold w1.
    repeat split; intros out w' ->; by destruct out.
Qed.

Lemma submit_handlers_witness :
  (app.post_create app.database rex_form demo_world).1
    = Ok (app.Redirect (app.url_for "get_list") 302).
Proof.
  pose proof (submit_handlers app.database rex_form 1 demo_world) as H.
  cbv zeta in H. destruct H as (_ & _ & _ & Hcreate & _).
  rewrite (Hcreate _ _ (surjective_pairing _)).
  assert ((app.create_pet app.database (fresh (dom (heap demo_world)))
             (set_heap (<[fresh (dom (heap demo_world)) := PStr <$> rex_form]>
                          (heap demo_world)) demo_world)).1 = Ok ()) as ->
    by (vm_compute; reflexivity).
  reflexivity.
Defined.

(** ** Further properties of the data-access layer *)

Lemma Kind_create_run name food sound w :
  database.Kind_create name food sound w =
    match char_value name with
    | Some n => (Ok (), set_kinds (<[next_id (kinds w) :=
                   mkKind n (char_value food) (char_value sound)]> (kinds w)) w)
    | None => (Raise (not_null_failed "kind.name"), w)
    end.
Proof. unfold database.Kind_create. unfold_M. by destruct (char_value name). Qed.

Lemma Owner_create_run name address w :
  database.Owner_create name address w =
    match char_value name with
    | Some n => (Ok (), set_owners (<[next_id (owners w) :=
                   mkOwner n (char_value address)]> (owners w)) w)
    | None => (Raise (not_null_failed "owner.name"), w)
    end.
Proof. unfold database.Owner_create. unfold_M. by destruct (char_value name). Qed.

Lemma Kind_update_run id name food sound w :
  database.Kind_update id name food sound w =
    match kinds w !! id, char_value name with
    | None, _ => (Ok (), w)
    | Some _, Some n => (Ok (), set_kinds (<[id :=
                   mkKind n (char_value food) (char_value sound)]> (kinds w)) w)
    | Some _, None => (Raise (not_null_failed "kind.name"), w)
    end.
Proof.
  unfold database.Kind_update. unfold_M.
  destruct (kinds w !! id); [|done]. by destruct (char_value name).
Qed.

Lemma Owner_update_run id name address w :
  database.Owner_update id name address w =
    match owners w !! id, char_value name with
    | None, _ => (Ok (), w)
    | Some _, Some n => (Ok (), set_owners (<[id :=
                   mkOwner n (char_value address)]> (owners w)) w)
    | Some _, None => (Raise (not_null_failed "owner.name"), w)
    end.
Proof.
  unfold database.Owner_update. unfold_M.
  destruct (owners w !! id); [|done]. by destruct (char_value name).
Qed.

Lemma create_kind_run l w :
  database.create_kind l w =
    match deref l w !! "name", deref l w !! "food", deref l w !! "sound" with
    | Some name, Some food, Some sound => database.Kind_create name food sound w
    | None, _, _ => (Raise (KeyError "name"), w)
    | Some _, None, _ => (Raise (KeyError "food"), w)
    | Some _, Some _, None => (Raise (KeyError "sound"), w)
    end.
Proof.
  unfold database.create_kind.
  unfold mbind at 1, M_bind, getitem. destruct (deref l w !! "name"); [|done].
  unfold mbind at 1, M_bind. destruct (deref l w !! "food"); [|done].
  unfold mbind at 1, M_bind. by destruct (deref l w !! "sound").
Qed.

Lemma create_owner_run l w :
  database.create_owner l w =
    match deref l w !! "name", deref l w !! "address" with
    | Some name, Some address => database.Owner_create name address w
    | None, _ => (Raise (KeyError "name"), w)
    | Some _, None => (Raise (KeyError "address"), w)
    end.
Proof.
  unfold database.create_owner.
  unfold mbind at 1, M_bind, getitem. destruct (deref l w !! "name"); [|done].
  unfold mbind at 1, M_bind. by destruct (deref l w !! "address").
Qed.

Lemma update_kind_run id l w :
  database.update_kind id l w =
    match deref l w !! "name", deref l w !! "food", deref l w !! "sound" with
    | Some name, Some food, Some sound => database.Kind_update id name food sound w
    | None, _, _ => (Raise (KeyError "name"), w)
    | Some _, None, _ => (Raise (KeyError "food"), w)
    | Some _, Some _, None => (Raise (KeyError "sound"), w)
    end.
Proof.
  unfold database.update_kind.
  unfold mbind at 1, M_bind, getitem. destruct (deref l w !! "name"); [|done].
  unfold mbind at 1, M_bind. destruct (deref l w !! "food"); [|done].
  unfold mbind at 1, M_bind. by destruct (deref l w !! "sound").
Qed.

Lemma update_owner_run id l w :
  database.update_owner id l w =
    match deref l w !! "name", deref l w !! "address" with
    | Some name, Some address => database.Owner_update id name address w
    | None, _ => (Raise (KeyError "name"), w)
    | Some _, None => (Raise (KeyError "address"), w)
    end.
Proof.
  unfold database.update_owner.
  unfold mbind at 1, M_bind, getitem. destruct (deref l w !! "name"); [|done].
  unfold mbind at 1, M_bind. by destruct (deref l w !! "address").
Qed.

Lemma delete_kind_run id w :
  database.delete_kind id w =
    if decide (is_Some (kinds w !! id) ∧ kind_in_use id w)
    then (Raise fk_failed, w)
    else (Ok (), set_kinds (delete id (kinds w)) w).
Proof. unfold database.delete_kind. unfold_M. by case_decide. Qed.

Lemma delete_owner_run id w :
  database.delete_owner id w =
    if decide (is_Some (owners w !! id) ∧ owner_in_use id w)
    then (Raise fk_failed, w)
    else (Ok (), set_owners (delete id (owners w)) w).
Proof. unfold database.delete_owner. unfold_M. by case_decide. Qed.

Local Ltac run_cases :=
  repeat first
    [ rewrite create_kind_run | rewrite create_owner_run
    | rewrite update_kind_run | rewrite update_owner_run
    | rewrite Kind_create_run | rewrite Owner_create_run
    | rewrite Kind_update_run | rewrite Owner_update_run
    | rewrite delete_kind_run | rewrite delete_owner_run
    | case_match ];
  simplify_eq/=.

(** X1. A call of the data-access layer that raises has changed no
    table: the three tables after the call are the tables before it. *)
Theorem failed_call_keeps_tables (c : call) (w w' : world) (e : exn) :
  run c w = (Raise e, w') → same_tables w w'.
Proof.
  destruct c as [l|l|l|id l|id l|id l|id|id|id]; simpl.
  - rewrite create_pet_run.
    destruct (deref l w !! "name") as [name|]; [|by intros ?; simplify_eq].
    destruct (deref l w !! "kind_id") as [kind|]; [|by intros ?; simplify_eq].
    destruct (deref l w !! "owner_id") as [owner|]; [|by intros ?; simplify_eq].
    destruct (Pet_create_cases name (PInt (coerced_age (deref l w))) kind owner
                (aged l w)) as [[e' ->]|(p & _ & _ & ->)]; [|done].
    by intros ?; simplify_eq.
  - run_cases; by intros ?; simplify_eq.
  - run_cases; by intros ?; simplify_eq.
  - rewrite update_pet_run.
    destruct (deref l w !! "name") as [name|]; [|by intros ?; simplify_eq].
    destruct (deref l w !! "kind_id") as [kind|]; [|by intros ?; simplify_eq].
    destruct (deref l w !! "owner_id") as [owner|]; [|by intros ?; simplify_eq].
    destruct (Pet_update_cases id name (PInt (coerced_age (deref l w))) kind owner
                (aged l w)) as [[e' ->]|[->|(p & _ & _ & ->)]]; [|done..].
    by intros ?; simplify_eq.
  - run_cases; by intros ?; simplify_eq.
  - run_cases; by intros ?; simplify_eq.
  - done.
  - run_cases; by intros ?; simplify_eq.
  - run_cases; by intros ?; simplify_eq.
Qed.

Lemma failed_call_keeps_tables_witness :
  run (DeleteKind 1) demo_world = (Raise fk_failed, demo_world)
  ∧ same_tables demo_world demo_world.
Proof.
  assert (H : run (DeleteKind 1) demo_world = (Raise fk_failed, demo_world))
    by (vm_compute; reflexivity).
  split; [exact H|]. exact (failed_call_keeps_tables _ _ _ _ H).
Defined.

(** X2. Every call writes to the table of its own entity type only: a
    call on pets leaves the kinds and the owners as they were, a call on
    kinds leaves the owners, the pets and every dictionary object as they
    were, and likewise a call on owners. *)
Theorem call_writes_own_table (c : call) (w : world) :
  match c with
  | CreatePet _ | UpdatePet _ _ | DeletePet _ =>
      kinds (run c w).2 = kinds w ∧ owners (run c w).2 = owners w
  | CreateKind _ | UpdateKind _ _ | DeleteKind _ =>
      owners (run c w).2 = owners w ∧ pets (run c w).2 = pets w
      ∧ heap (run c w).2 = heap w
  | CreateOwner _ | UpdateOwner _ _ | DeleteOwner _ =>
      kinds (run c w).2 = kinds w ∧ pets (run c w).2 = pets w
      ∧ heap (run c w).2 = heap w
  end.
Proof.
  destruct c as [l|l|l|id l|id l|id l|id|id|id]; simpl.
  - rewrite create_pet_run.
    destruct (deref l w !! "name") as [name|]; [|done].
    destruct (deref l w !! "kind_id") as [kind|]; [|done].
    destruct (deref l w !! "owner_id") as [owner|]; [|done].
    by destruct (Pet_create_cases name (PInt (coerced_age (deref l w))) kind owner
                (aged l w)) as [[e' ->]|(p & _ & _ & ->)].
  - run_cases; done.
  - run_cases; done.
  - rewrite update_pet_run.
    destruct (deref l w !! "name") as [name|]; [|done].
    destruct (deref l w !! "kind_id") as [kind|]; [|done].
    destruct (deref l w !! "owner_id") as [owner|]; [|done].
    by destruct (Pet_update_cases id name (PInt (coerced_age (deref l w))) kind owner
                (aged l w)) as [[e' ->]|[->|(p & _ & _ & ->)]].
  - run_cases; done.
  - run_cases; done.
  - done.
  - run_cases; done.
  - run_cases; done.
Qed.

Lemma get_kind_run id w :
  database.get_kind id w =
    match kinds w !! id with
    | Some k => (Ok (ODict (database.kind_dict id k)), w)
    | None => (Ok (OStr "Data not found."), w)
    end.
Proof. unfold database.get_kind. unfold_M. by destruct (kinds w !! id). Qed.

Lemma get_owner_run id w :
  database.get_owner id w =
    match owners w !! id with
    | Some o => (Ok (ODict (database.owner_dict id o)), w)
    | None => (Ok (OStr "Data not found"), w)
    end.
Proof. unfold database.get_owner. unfold_M. by destruct (owners w !! id). Qed.


Lemma kind_dict_fields id k :
  database.kind_dict id k !! "id" = Some (PInt id)
  ∧ database.kind_dict id k !! "name" = Some (PStr (kind_name k))
  ∧ database.kind_dict id k !! "food" = Some (str_val (kind_food k))
  ∧ database.kind_dict id k !! "sound" = Some (str_val (kind_sound k)).
Proof. unfold database.kind_dict. repeat split; by simplify_map_eq. Qed.

Lemma owner_dict_fields id o :
  database.owner_dict id o !! "id" = Some (PInt id)
  ∧ database.owner_dict id o !! "name" = Some (PStr (owner_name o))
  ∧ database.owner_dict id o !! "address" = Some (str_val (owner_address o)).
Proof. unfold database.owner_dict. repeat split; by simplify_map_eq. Qed.

(** Text and [None] come back from a text column as they went in. *)
Lemma str_val_char_value v : (∀ z, v ≠ PInt z) → str_val (char_value v) = v.
Proof. destruct v; naive_solver. Qed.

(** X3. [create_kind] followed by [get_kind]: a dictionary with a
    [name] that is not [None], a [food] and a [sound] is stored under an
    id larger than every id in use, [get_kind] on that id returns the
    values that went in (text and [None] unchanged), and every row that
    was there is still there. *)
Theorem create_kind_then_get_kind (l : loc) (w : world)
    (name food sound : pyval) (n : string) :
  deref l w !! "name" = Some name → char_value name = Some n →
  deref l w !! "food" = Some food → deref l w !! "sound" = Some sound →
  ∃ w' d,
    database.create_kind l w = (Ok (), w')
    ∧ (∀ id k, kinds w !! id = Some k →
         id < next_id (kinds w) ∧ kinds w' !! id = Some k)
    ∧ size (kinds w') = S (size (kinds w))
    ∧ database.get_kind (next_id (kinds w)) w' = (Ok (ODict d), w')
    ∧ d !! "id" = Some (PInt (next_id (kinds w)))
    ∧ d !! "name" = Some (PStr n)
    ∧ d !! "food" = Some (str_val (char_value food))
    ∧ d !! "sound" = Some (str_val (char_value sound))
    ∧ ((∀ z, food ≠ PInt z) → d !! "food" = Some food)
    ∧ ((∀ z, sound ≠ PInt z) → d !! "sound" = Some sound).
Proof.
  intros Hn Hn' Hf Hs. eexists _, _.
  rewrite create_kind_run, Hn, Hf, Hs, Kind_create_run, Hn'.
  split; [reflexivity|]. rewrite get_kind_run. simpl.
  rewrite lookup_insert_eq. split; [|split; [|split; [reflexivity|]]].
  - intros id k Hk. assert (id < next_id (kinds w)) by (apply next_id_bound; eauto).
    split; [done|]. rewrite lookup_insert_ne by lia. done.
  - apply map_size_insert_None, next_id_fresh.
  - destruct (kind_dict_fields (next_id (kinds w))
                (mkKind n (char_value food) (char_value sound)))
      as (Hi & Hna & Hfo & Hso).
    simpl in *. repeat split; try done.
    + intros Hz. by rewrite Hfo, str_val_char_value.
    + intros Hz. by rewrite Hso, str_val_char_value.
Qed.

Lemma create_kind_then_get_kind_witness :
  ∃ w' d,
    database.create_kind 1 demo_world = (Ok (), w')
    ∧ database.get_kind (next_id (kinds demo_world)) w' = (Ok (ODict d), w')
    ∧ d !! "name" = Some (PStr "dog")
    ∧ d !! "food" = Some (PStr "dogfood").
Proof.
  destruct (create_kind_then_get_kind 1 demo_world
              (PStr "dog") (PStr "dogfood") (PStr "bark") "dog")
    as (w' & d & H1 & _ & _ & H2 & _ & H3 & _ & _ & H4 & _);
    [vm_compute; reflexivity..|].
  exists w', d. split; [exact H1|]. split; [exact H2|]. split; [exact H3|].
  apply H4. intros z. discriminate.
Defined.

(** X4. [create_owner] followed by [get_owner]: a dictionary with a
    [name] that is not [None] and an [address] is stored under an id
    larger than every id in use, [get_owner] on that id returns the
    values that went in, and every row that was there is still there. *)
Theorem create_owner_then_get_owner (l : loc) (w : world)
    (name address : pyval) (n : string) :
  deref l w !! "name" = Some name → char_value name = Some n →
  deref l w !! "address" = Some address →
  ∃ w' d,
    database.create_owner l w = (Ok (), w')
    ∧ (∀ id o, owners w !! id = Some o →
         id < next_id (owners w) ∧ owners w' !! id = Some o)
    ∧ size (owners w') = S (size (owners w))
    ∧ database.get_owner (next_id (owners w)) w' = (Ok (ODict d), w')
    ∧ d !! "id" = Some (PInt (next_id (owners w)))
    ∧ d !! "name" = Some (PStr n)
    ∧ d !! "address" = Some (str_val (char_value address))
    ∧ ((∀ z, address ≠ PInt z) → d !! "address" = Some address).
Proof.
  intros Hn Hn' Ha. eexists _, _.
  rewrite create_owner_run, Hn, Ha, Owner_create_run, Hn'.
  split; [reflexivity|]. rewrite get_owner_run. simpl.
  rewrite lookup_insert_eq. split; [|split; [|split; [reflexivity|]]].
  - intros id o Ho. assert (id < next_id (owners w)) by (apply next_id_bound; eauto).
    split; [done|]. rewrite lookup_insert_ne by lia. done.
  - apply map_size_insert_None, next_id_fresh.
  - destruct (owner_dict_fields (next_id (owners w)) (mkOwner n (char_value address)))
      as (Hi & Hna & Had).
    simpl in *. repeat split; try done.
    intros Hz. by rewrite Had, str_val_char_value.
Qed.

Lemma create_owner_then_get_owner_witness :
  ∃ w' d,
    database.create_owner 2 demo_world = (Ok (), w')
    ∧ database.get_owner (next_id (owners demo_world)) w' = (Ok (ODict d), w')
    ∧ d !! "name" = Some (PStr "Greg")
    ∧ d !! "address" = Some (PStr "1365 Maple Ave.").
Proof.
  destruct (create_owner_then_get_owner 2 demo_world
              (PStr "Greg") (PStr "1365 Maple Ave.") "Greg")
    as (w' & d & H1 & _ & _ & H2 & _ & H3 & _ & H4);
    [vm_compute; reflexivity..|].
  exists w', d. split; [exact H1|]. split; [exact H2|]. split; [exact H3|].
  apply H4. intros z. discriminate.
Defined.



(** X6. What [create_kind] and [create_owner] accept: the call returns
    exactly when the dictionary has every key the function reads and its
    [name] is not [None]; otherwise it raises and the world is the world
    before the call. *)
Theorem create_kind_owner_accept (l : loc) (w : world) :
  ((∃ w', database.create_kind l w = (Ok (), w')) ↔
     (∃ name, deref l w !! "name" = Some name ∧ name ≠ PNone)
     ∧ is_Some (deref l w !! "food") ∧ is_Some (deref l w !! "sound"))
  ∧ ((∃ w', database.create_owner l w = (Ok (), w')) ↔
       (∃ name, deref l w !! "name" = Some name ∧ name ≠ PNone)
       ∧ is_Some (deref l w !! "address"))
  ∧ (∀ e w', database.create_kind l w = (Raise e, w') → w' = w)
  ∧ (∀ e w', database.create_owner l w = (Raise e, w') → w' = w).
Proof.
  rewrite create_kind_run, create_owner_run.
  split; [|split; [|split]].
  - destruct (deref l w !! "name") as [name|];
      [|split; [intros [? ?]; done|intros [(? & ? & _) _]; done]].
    destruct (deref l w !! "food") as [food|];
      [|split; [intros [? ?]; done|intros (_ & [? ?] & _); done]].
    destruct (deref l w !! "sound") as [sound|];
      [|split; [intros [? ?]; done|intros (_ & _ & [? ?]); done]].
    rewrite Kind_create_run. destruct name; simpl; split.
    all: try (intros [? ?]; done).
    all: try (intros [(? & [= <-] & ?) _]; done).
    all: try (intros _; by eexists).
    all: intros _; split; [eexists; split; [reflexivity|discriminate]|by eauto].
  - destruct (deref l w !! "name") as [name|];
      [|split; [intros [? ?]; done|intros [(? & ? & _) _]; done]].
    destruct (deref l w !! "address") as [address|];
      [|split; [intros [? ?]; done|intros (_ & [? ?]); done]].
    rewrite Owner_create_run. destruct name; simpl; split.
    all: try (intros [? ?]; done).
    all: try (intros [(? & [= <-] & ?) _]; done).
    all: try (intros _; by eexists).
    all: intros _; split; [eexists; split; [reflexivity|discriminate]|by eauto].
  - intros e w'. run_cases; by intros ?; simplify_eq.
  - intros e w'. run_cases; by intros ?; simplify_eq.
Qed.

Lemma create_kind_owner_accept_witness :
  (∃ w', database.create_kind 1 demo_world = (Ok (), w'))
  ∧ database.create_kind 2 demo_world = (Raise (KeyError "food"), demo_world).
Proof.
  destruct (create_kind_owner_accept 1 demo_world) as ((_ & Hacc) & _).
  destruct (create_kind_owner_accept 2 demo_world) as (_ & _ & Hsame & _).
  split.
  - apply Hacc. split; [|split]; vm_compute; eauto.
    exists (PStr "dog"). split; [reflexivity|discriminate].
  - assert (H : (database.create_kind 2 demo_world).1 = Raise (KeyError "food"))
      by (vm_compute; reflexivity).
    destruct (database.create_kind 2 demo_world) as [out w'] eqn:Hrun.
    simpl in H. subst out. by rewrite (Hsame _ _ eq_refl).
Defined.





(** X8. [update_kind] on the id of an existing row, with a dictionary
    that has the three keys and a [name] that is not [None], rewrites
    that row and nothing else: the ids in use are the same, every other
    row is as it was, and [get_kind] returns the new values. *)
Theorem update_kind_rewrites_row (id : Z) (l : loc) (w : world)
    (name food sound : pyval) (n : string) :
  is_Some (kinds w !! id) →
  deref l w !! "name" = Some name → char_value name = Some n →
  deref l w !! "food" = Some food → deref l w !! "sound" = Some sound →
  ∃ w' d,
    database.update_kind id l w = (Ok (), w')
    ∧ dom (kinds w') = dom (kinds w)
    ∧ (∀ id', id' ≠ id → kinds w' !! id' = kinds w !! id')
    ∧ database.get_kind id w' = (Ok (ODict d), w')
    ∧ d !! "id" = Some (PInt id)
    ∧ d !! "name" = Some (PStr n)
    ∧ d !! "food" = Some (str_val (char_value food))
    ∧ d !! "sound" = Some (str_val (char_value sound)).
Proof.
  intros [k0 Hk0] Hn Hn' Hf Hs. eexists _, _.
  rewrite update_kind_run, Hn, Hf, Hs, Kind_update_run, Hk0, Hn'.
  split; [reflexivity|]. rewrite get_kind_run. simpl. rewrite lookup_insert_eq.
  split; [|split; [|split; [reflexivity|]]].
  - apply dom_insert_lookup_L. by eexists.
  - intros id' Hne. by rewrite lookup_insert_ne.
  - apply (kind_dict_fields id (mkKind n (char_value food) (char_value sound))).
Qed.

Lemma update_kind_rewrites_row_witness :
  ∃ w' d,
    database.update_kind 1 1 demo_world = (Ok (), w')
    ∧ database.get_kind 1 w' = (Ok (ODict d), w')
    ∧ d !! "sound" = Some (PStr "bark").
Proof.
  destruct (update_kind_rewrites_row 1 1 demo_world
              (PStr "dog") (PStr "dogfood") (PStr "bark") "dog")
    as (w' & d & H1 & _ & _ & H2 & _ & _ & _ & H3);
    [vm_compute; eauto..|].
  exists w', d. split; [exact H1|]. split; [exact H2|exact H3].
Defined.



(** X11. Pets first, then their kind: when one pet is the only pet of a
    kind, [delete_kind] is refused before that pet is deleted and
    returns after it is. *)
Theorem delete_pet_frees_kind (pid k : Z) (p : Pet) (w : world) :
  is_Some (kinds w !! k) →
  pets w !! pid = Some p → pet_kind_id p = k →
  (∀ pid' p', pets w !! pid' = Some p' → pet_kind_id p' = k → pid' = pid) →
  database.delete_kind k w = (Raise fk_failed, w)
  ∧ ∃ w',
      database.delete_kind k (database.delete_pet pid w).2 = (Ok (), w')
      ∧ kinds w' = delete k (kinds w)
      ∧ pets w' = delete pid (pets w)
      ∧ owners w' = owners w.
Proof.
  intros Hk Hp Hpk Honly. rewrite !delete_kind_run. split.
  - rewrite decide_True; [done|]. split; [done|]. by exists pid, p.
  - rewrite decide_False; [by eexists|].
    intros [_ (pid' & p' & Hp' & Hk')]. simpl in Hp'.
    apply lookup_delete_Some in Hp' as [Hne Hp'].
    apply Hne. symmetry. by eapply Honly.
Qed.

Lemma delete_pet_frees_kind_witness :
  database.delete_kind 1 demo_world = (Raise fk_failed, demo_world)
  ∧ ∃ w',
      database.delete_kind 1 (database.delete_pet 1 demo_world).2 = (Ok (), w')
      ∧ kinds w' = delete 1 (kinds demo_world).
Proof.
  destruct (delete_pet_frees_kind 1 1 (mkPet "dorothy" (Some 0) 1 1) demo_world)
    as (H1 & w' & H2 & H3 & _).
  - vm_compute; eauto.
  - vm_compute; reflexivity.
  - reflexivity.
  - intros pid' p' Hp' _.
    assert (Hdom : dom (pets demo_world) = {[ 1 ]}) by (vm_compute; reflexivity).
    apply elem_of_dom_2 in Hp'. rewrite Hdom in Hp'.
    by apply elem_of_singleton in Hp'.
  - split; [exact H1|]. exists w'. split; [exact H2|exact H3].
Defined.

(** X12. Creating and then deleting restores the tables.  In a world
    with referential integrity, [create_kind] followed by [delete_kind]
    on the new id gives back the world before; [create_pet] followed by
    [delete_pet] on the new id gives back the three tables. *)
Theorem create_then_delete (l : loc) (w w1 : world) :
  ref_integrity w →
  (database.create_kind l w = (Ok (), w1) →
     database.delete_kind (next_id (kinds w)) w1 = (Ok (), w))
  ∧ (database.create_owner l w = (Ok (), w1) →
       database.delete_owner (next_id (owners w)) w1 = (Ok (), w))
  ∧ (database.create_pet l w = (Ok (), w1) →
       ∃ w2, database.delete_pet (next_id (pets w)) w1 = (Ok (), w2)
         ∧ same_tables w w2).
Proof.
  intros Hw. split; [|split].
  - rewrite create_kind_run, delete_kind_run.
    destruct (deref l w !! "name") as [name|]; [|done].
    destruct (deref l w !! "food") as [food|]; [|done].
    destruct (deref l w !! "sound") as [sound|]; [|done].
    rewrite Kind_create_run. destruct (char_value name); [|done].
    intros [= <-]. rewrite decide_False.
    + simpl. rewrite delete_insert_id by apply next_id_fresh. by destruct w.
    + intros [_ (pid & p & Hp & Hk)]. simpl in Hp.
      destruct (Hw pid p Hp) as [Hsome _]. rewrite Hk in Hsome.
      rewrite next_id_fresh in Hsome. by destruct Hsome.
  - rewrite create_owner_run, delete_owner_run.
    destruct (deref l w !! "name") as [name|]; [|done].
    destruct (deref l w !! "address") as [address|]; [|done].
    rewrite Owner_create_run. destruct (char_value name); [|done].
    intros [= <-]. rewrite decide_False.
    + simpl. rewrite delete_insert_id by apply next_id_fresh. by destruct w.
    + intros [_ (pid & p & Hp & Hk)]. simpl in Hp.
      destruct (Hw pid p Hp) as [_ Hsome]. rewrite Hk in Hsome.
      rewrite next_id_fresh in Hsome. by destruct Hsome.
  - rewrite create_pet_run.
    destruct (deref l w !! "name") as [name|]; [|done].
    destruct (deref l w !! "kind_id") as [kind|]; [|done].
    destruct (deref l w !! "owner_id") as [owner|]; [|done].
    destruct (Pet_create_cases name (PInt (coerced_age (deref l w))) kind owner
                (aged l w)) as [[e' ->]|(p & _ & _ & ->)]; [done|].
    intros ?; simplify_eq. eexists. split; [reflexivity|].
    unfold same_tables. simpl.
    by rewrite delete_insert_id by apply next_id_fresh.
Qed.

Lemma create_then_delete_witness :
  ref_integrity demo_world
  ∧ ∃ w1,
      database.create_kind 1 demo_world = (Ok (), w1)
      ∧ database.delete_kind (next_id (kinds demo_world)) w1 = (Ok (), demo_world).
Proof.
  assert (Hw : ref_integrity demo_world).
  { apply map_Forall_to_list. vm_compute. repeat constructor; eauto. }
  assert (H1 : database.create_kind 1 demo_world
               = (Ok (), (database.create_kind 1 demo_world).2))
    by (vm_compute; reflexivity).
  split; [exact Hw|]. eexists. split; [exact H1|].
  by apply (create_then_delete 1 demo_world _ Hw).
Defined.


Lemma get_pets_run w :
  database.get_pets w = (Ok (map_to_list (pets w) ≫= joined w), w).
Proof.
  unfold database.get_pets. unfold_M. do 2 f_equal.
  induction (map_to_list (pets w)) as [|[id p] l IH]; [done|].
  rewrite !bind_cons. by f_equal.
Qed.

Lemma joined_cases w row :
  match kinds w !! pet_kind_id row.2, owners w !! pet_owner_id row.2 with
  | Some k, Some o => joined w row = [database.pet_dict row.1 row.2 k o]
  | _, _ => joined w row = []
  end.
Proof.
  unfold joined.
  destruct (kinds w !! pet_kind_id row.2); [|done].
  by destruct (owners w !! pet_owner_id row.2).
Qed.

(** X13. [get_pets] is an inner join: whatever the tables hold, it
    returns without error and without writing, with at most one row per
    pet, and a pet has a row exactly when its kind and its owner both
    exist. *)
Theorem get_pets_inner_join (w : world) :
  ∃ rows : list dict,
    database.get_pets w = (Ok rows, w)
    ∧ (length rows ≤ size (pets w))%nat
    ∧ ∀ id, (∃ d, d ∈ rows ∧ d !! "id" = Some (PInt id)) ↔
        ∃ p, pets w !! id = Some p
          ∧ is_Some (kinds w !! pet_kind_id p)
          ∧ is_Some (owners w !! pet_owner_id p).
Proof.
  eexists. split; [apply get_pets_run|]. split.
  - rewrite <- length_map_to_list.
    induction (map_to_list (pets w)) as [|row l IH]; [done|].
    rewrite bind_cons, length_app. simpl.
    pose proof (joined_cases w row) as Hrow.
    destruct (kinds w !! pet_kind_id row.2), (owners w !! pet_owner_id row.2);
      rewrite Hrow; simpl; lia.
  - intros id. split.
    + intros (d & Hd & Hid). apply list_elem_of_bind in Hd as ([id' p] & Hd & Hrow).
      apply elem_of_map_to_list in Hrow.
      pose proof (joined_cases w (id', p)) as Hj. simpl in Hj.
      destruct (kinds w !! pet_kind_id p) as [k|] eqn:Hk;
        [|rewrite Hj in Hd; by apply elem_of_nil in Hd].
      destruct (owners w !! pet_owner_id p) as [o|] eqn:Ho;
        [|rewrite Hj in Hd; by apply elem_of_nil in Hd].
      rewrite Hj in Hd. apply list_elem_of_singleton in Hd as ->.
      destruct (pet_dict_fields id' p k o) as (Hid' & _).
      rewrite Hid' in Hid. injection Hid as ->.
      exists p. rewrite Hk, Ho. eauto.
    + intros (p & Hp & [k Hk] & [o Ho]).
      exists (database.pet_dict id p k o). split.
      * apply list_elem_of_bind. exists (id, p). split.
        -- pose proof (joined_cases w (id, p)) as Hj. simpl in Hj.
           rewrite Hk, Ho in Hj. rewrite Hj. apply list_elem_of_singleton. done.
        -- by apply elem_of_map_to_list.
      * apply pet_dict_fields.
Qed.

(** X14. [get_kinds] and [get_owners] return, without error and without
    writing, one dictionary per row of their table, with the id and the
    columns of the row. *)
Theorem get_all_rows (w : world) :
  (∃ rows : list dict,
     database.get_kinds w = (Ok rows, w)
     ∧ length rows = size (kinds w)
     ∧ Forall2 (λ (row : Z * Kind) (d : dict),
         d !! "id" = Some (PInt row.1)
         ∧ d !! "name" = Some (PStr (kind_name row.2))
         ∧ d !! "food" = Some (str_val (kind_food row.2))
         ∧ d !! "sound" = Some (str_val (kind_sound row.2)))
       (map_to_list (kinds w)) rows)
  ∧ (∃ rows : list dict,
       database.get_owners w = (Ok rows, w)
       ∧ length rows = size (owners w)
       ∧ Forall2 (λ (row : Z * Owner) (d : dict),
           d !! "id" = Some (PInt row.1)
           ∧ d !! "name" = Some (PStr (owner_name row.2))
           ∧ d !! "address" = Some (str_val (owner_address row.2)))
         (map_to_list (owners w)) rows).
Proof.
  split; eexists; (split; [reflexivity|]).
  - rewrite length_fmap, length_map_to_list. split; [done|].
    apply Forall2_fmap_r, Forall_Forall2_diag, Forall_forall.
    intros [id k] _. apply kind_dict_fields.
  - rewrite length_fmap, length_map_to_list. split; [done|].
    apply Forall2_fmap_r, Forall_Forall2_diag, Forall_forall.
    intros [id o] _. apply owner_dict_fields.
Qed.

Lemma coerced_age_insert (d : dict) (z : Z) :
  coerced_age (<["age" := PInt z]> d) = z.
Proof. unfold coerced_age. by rewrite lookup_insert_eq. Qed.

Lemma aged_settles l w w1 :
  heap w1 = heap (aged l w) → heap (aged l w1) = heap w1.
Proof.
  intros Hh. unfold aged at 1. simpl.
  assert (deref l w1 = deref l (aged l w)) as -> by (unfold deref; by rewrite Hh).
  rewrite deref_aged, coerced_age_insert, insert_insert_eq.
  apply insert_id. rewrite Hh. unfold aged. simpl. by rewrite lookup_insert_eq.
Qed.

(** X15. The coercion settles: once [create_pet] or [update_pet] has
    run on a dictionary object, a further [create_pet] or [update_pet]
    with that object writes nothing into any dictionary. *)
Theorem coercion_settles (l : loc) (id id' : Z) (w : world) :
  let settled (w1 : world) :=
    heap (database.create_pet l w1).2 = heap w1
    ∧ heap (database.update_pet id' l w1).2 = heap w1 in
  settled (database.create_pet l w).2
  ∧ settled (database.update_pet id l w).2.
Proof.
  assert (∀ w1, heap w1 = heap (aged l w) →
    heap (database.create_pet l w1).2 = heap w1
    ∧ heap (database.update_pet id' l w1).2 = heap w1) as Hsettled.
  { intros w1 Hh. rewrite create_pet_heap, update_pet_heap.
    split; by eapply aged_settles. }
  split; apply Hsettled; [apply create_pet_heap|apply update_pet_heap].
Qed.

(** ** [int()] reads back what [str()] writes *)

Lemma digit_of_pretty_N_char (d : N) :
  (d < 10)%N →
  digit_of (pretty_N_char d) = Some (Z.of_N d)
  ∧ is_space (pretty_N_char d) = false.
Proof.
  intros Hd.
  assert (d = 0 ∨ d = 1 ∨ d = 2 ∨ d = 3 ∨ d = 4 ∨ d = 5 ∨ d = 6 ∨ d = 7
          ∨ d = 8 ∨ d = 9)%N as Hcases by lia.
  repeat (destruct Hcases as [->|Hcases]; [by vm_compute|]).
  subst d. by vm_compute.
Qed.

Lemma int_digits_pretty_N_go (x : N) (s : string) (b : bool) :
  (0 < x)%N →
  int_digits 0 b (list_ascii_of_string (pretty_N_go x s))
    = int_digits (Z.of_N x) true (list_ascii_of_string s).
Proof.
  revert s b. induction (N.lt_wf_0 x) as [x _ IH]; intros s b Hx.
  rewrite pretty_N_go_step by done.
  destruct (digit_of_pretty_N_char (x `mod` 10)%N) as [Hdigit _];
    [by apply N.mod_lt|].
  pose proof (N.div_mod x 10 ltac:(done)) as Hdm.
  assert (x `div` 10 < x)%N as Hlt by (apply N.div_lt; lia).
  revert Hdigit Hdm Hlt.
  generalize (x `mod` 10)%N as r. generalize (x `div` 10)%N as q.
  intros q r Hdigit Hdm Hlt.
  destruct (decide (q = 0)%N) as [Hz|Hnz].
  - rewrite Hz, pretty_N_go_0. simpl. rewrite Hdigit. f_equal. lia.
  - rewrite IH; [|done|lia].
    simpl. rewrite Hdigit. f_equal. lia.
Qed.

Lemma no_space_pretty_N_go (x : N) (s : string) :
  Forall (λ c, is_space c = false) (list_ascii_of_string s) →
  Forall (λ c, is_space c = false) (list_ascii_of_string (pretty_N_go x s)).
Proof.
  revert s. induction (N.lt_wf_0 x) as [x _ IH]; intros s Hs.
  destruct (decide (x = 0)%N) as [->|Hx]; [by rewrite pretty_N_go_0|].
  rewrite pretty_N_go_step by lia.
  apply IH; [apply N.div_lt; lia|].
  simpl. constructor; [|done].
  apply digit_of_pretty_N_char, N.mod_lt. done.
Qed.

Lemma lstrip_no_space (l : list ascii) :
  Forall (λ c, is_space c = false) l → lstrip l = l.
Proof. destruct 1 as [|c l Hc _]; simpl; [done|]. by rewrite Hc. Qed.

Lemma strip_no_space (l : list ascii) :
  Forall (λ c, is_space c = false) l → strip l = l.
Proof.
  intros Hl. unfold strip. rewrite (lstrip_no_space l Hl).
  rewrite lstrip_no_space by by apply Forall_reverse.
  apply reverse_involutive.
Qed.

(** Text that reads as digits does not start with a sign. *)
Lemma int_of_str_unsigned (s : string) (z : Z) :
  strip (list_ascii_of_string s) = list_ascii_of_string s →
  int_digits 0 false (list_ascii_of_string s) = Some z →
  int_of_str s = Some z.
Proof.
  unfold int_of_str. intros ->.
  destruct (list_ascii_of_string s) as [|c l']; [done|]. intros H.
  assert (is_Some (digit_of c)) as [d Hd].
  { simpl in H. destruct (digit_of c); [by eexists|].
    by rewrite andb_false_r in H. }
  destruct c as [[] [] [] [] [] [] [] []];
    try (vm_compute in Hd; discriminate Hd); exact H.
Qed.

Lemma int_of_str_pretty_N (x : N) : int_of_str (pretty x) = Some (Z.of_N x).
Proof.
  unfold pretty, pretty_N. case_decide as Hx; [by subst|].
  apply int_of_str_unsigned.
  - apply strip_no_space, no_space_pretty_N_go. constructor.
  - rewrite int_digits_pretty_N_go by lia. done.
Qed.

Lemma int_of_str_pretty (z : Z) : int_of_str (pretty z) = Some z.
Proof.
  destruct z as [|p|p].
  - done.
  - apply (int_of_str_pretty_N (N.pos p)).
  - unfold pretty, pretty_Z, int_of_str.
    change (list_ascii_of_string ("-" +:+ pretty p))
      with ("-"%char :: list_ascii_of_string (pretty (N.pos p))).
    unfold pretty at 1, pretty_N. simpl.
    rewrite strip_no_space.
    + rewrite int_digits_pretty_N_go by lia. done.
    + constructor; [done|]. apply no_space_pretty_N_go. constructor.
Qed.

Lemma Pet_create_row name age kind owner w w' :
  database.Pet_create name age kind owner w = (Ok (), w') →
  ∃ n k o, pets w' = <[next_id (pets w) := mkPet n (int_value age) k o]> (pets w).
Proof.
  unfold database.Pet_create. unfold_M.
  repeat case_match; intros ?; simplify_eq/=. by eexists _, _, _.
Qed.

Lemma Pet_update_row id name age kind owner w w' :
  is_Some (pets w !! id) →
  database.Pet_update id name age kind owner w = (Ok (), w') →
  ∃ n k o, pets w' = <[id := mkPet n (int_value age) k o]> (pets w).
Proof.
  intros [p Hp]. unfold database.Pet_update. unfold_M. rewrite Hp.
  repeat case_match; intros ?; simplify_eq/=. by eexists _, _, _.
Qed.

Lemma create_pet_row l w w' :
  database.create_pet l w = (Ok (), w') →
  ∃ n k o, pets w' = <[next_id (pets w) :=
                        mkPet n (Some (coerced_age (deref l w))) k o]> (pets w).
Proof.
  rewrite create_pet_run.
  destruct (deref l w !! "name") as [name|]; [|done].
  destruct (deref l w !! "kind_id") as [kind|]; [|done].
  destruct (deref l w !! "owner_id") as [owner|]; [|done].
  intros Hrun. destruct (Pet_create_row _ _ _ _ _ _ Hrun) as (n & k & o & Hp).
  by exists n, k, o.
Qed.

Lemma update_pet_row id l w w' :
  is_Some (pets w !! id) →
  database.update_pet id l w = (Ok (), w') →
  ∃ n k o, pets w' = <[id := mkPet n (Some (coerced_age (deref l w))) k o]> (pets w).
Proof.
  intros Hid. rewrite update_pet_run.
  destruct (deref l w !! "name") as [name|]; [|done].
  destruct (deref l w !! "kind_id") as [kind|]; [|done].
  destruct (deref l w !! "owner_id") as [owner|]; [|done].
  intros Hrun.
  destruct (Pet_update_row _ _ _ _ _ (aged l w) _ Hid Hrun) as (n & k & o & Hp).
  by exists n, k, o.
Qed.

(** X16. An age written as decimal text is read back as the number:
    [int()] applied to the text of an integer [z] returns [z], so when
    ["age"] holds that text, [create_pet] and [update_pet] put [z] into
    the dictionary and into the row they write. *)
Theorem age_text_reads_back (l : loc) (w : world) (z : Z) :
  deref l w !! "age" = Some (PStr (pretty z)) →
  int (PStr (pretty z)) w = (Ok z, w)
  ∧ deref l (database.create_pet l w).2 !! "age" = Some (PInt z)
  ∧ (∀ w', database.create_pet l w = (Ok (), w') →
       ∃ p, pets w' !! next_id (pets w) = Some p ∧ pet_age p = Some z)
  ∧ (∀ id w', is_Some (pets w !! id) →
       database.update_pet id l w = (Ok (), w') →
       ∃ p, pets w' !! id = Some p ∧ pet_age p = Some z).
Proof.
  intros Hage.
  assert (coerced_age (deref l w) = z) as Hz.
  { unfold coerced_age. rewrite Hage. simpl. by rewrite int_of_str_pretty. }
  split; [|split; [|split]].
  - apply int_Some. simpl. apply int_of_str_pretty.
  - destruct (aged_heap_spec l w (database.create_pet l w).2 (create_pet_heap l w))
      as (Ha & _). by rewrite Ha, Hz.
  - intros w' Hrun. destruct (create_pet_row _ _ _ Hrun) as (n & k & o & ->).
    eexists. rewrite lookup_insert_eq. split; [done|]. simpl. by rewrite Hz.
  - intros id w' Hid Hrun.
    destruct (update_pet_row _ _ _ _ Hid Hrun) as (n & k & o & ->).
    eexists. rewrite lookup_insert_eq. split; [done|]. simpl. by rewrite Hz.
Qed.

Lemma age_text_reads_back_witness :
  deref 4 (set_heap {[ 4%positive := <["age" := PStr (pretty 15)]> heidi ]} demo_world)
    !! "age" = Some (PStr "15")
  ∧ ∃ w', database.create_pet 4
            (set_heap {[ 4%positive := <["age" := PStr (pretty 15)]> heidi ]} demo_world)
          = (Ok (), w')
      ∧ ∃ p, pets w' !! 2 = Some p ∧ pet_age p = Some 15.
Proof.
  assert (Hage : deref 4 (set_heap {[ 4%positive := <["age" := PStr (pretty 15)]> heidi ]}
                            demo_world) !! "age" = Some (PStr (pretty 15)))
    by (vm_compute; reflexivity).
  assert (Hrun : database.create_pet 4
            (set_heap {[ 4%positive := <["age" := PStr (pretty 15)]> heidi ]} demo_world)
          = (Ok (), (database.create_pet 4
            (set_heap {[ 4%positive := <["age" := PStr (pretty 15)]> heidi ]}
               demo_world)).2))
    by (vm_compute; reflexivity).
  split; [exact Hage|]. eexists. split; [exact Hrun|].
  destruct (age_text_reads_back 4 _ 15 Hage) as (_ & _ & Hcreate & _).
  exact (Hcreate _ Hrun).
Defined.

(** ** The self-test *)

Lemma T_bind_passed {A B} (m : T A) (f : A → T B) w a w' :
  m w = (Passed a, w') → (m ≫= f) w = f a w'.
Proof. unfold mbind, T_bind. by intros ->. Qed.

Lemma lift_ok {A} (m : M A) w a w' : m w = (Ok a, w') → lift m w = (Passed a, w').
Proof. unfold lift. by intros ->. Qed.

Lemma get_kinds_run w :
  database.get_kinds w = (Ok (uncurry database.kind_dict <$> map_to_list (kinds w)), w).
Proof. done. Qed.

Lemma get_owners_run w :
  database.get_owners w
    = (Ok (uncurry database.owner_dict <$> map_to_list (owners w)), w).
Proof. done. Qed.

Lemma first_row_pass (row : dict) rows fields w :
  Forall (λ f, is_Some (row !! f)) fields →
  first_row (row :: rows) fields w = (Passed row, w).
Proof.
  intros Hf. unfold first_row. rewrite (T_bind_passed _ _ w () w); [done|].
  induction Hf as [|f fields Hf _ IH]; [done|].
  simpl. rewrite (T_bind_passed _ _ w () w); [done|].
  unfold assert_. by rewrite bool_decide_true.
Qed.

Lemma item_run (d : dict) key v w : d !! key = Some v → item d key w = (Passed v, w).
Proof. unfold item. by intros ->. Qed.

Lemma test_get_kinds_run w :
  test_get_kinds w =
    if decide (kinds w = ∅) then (Failed (AssertionError None), w)
    else (Passed (), w).
Proof.
  unfold test_get_kinds.
  rewrite (T_bind_passed _ _ _ _ _ (lift_ok _ _ _ _ (get_kinds_run w))).
  case_decide as He.
  - rewrite He, map_to_list_empty. done.
  - destruct (map_to_list (kinds w)) as [|[id k] l] eqn:Hl;
      [by apply map_to_list_empty_iff in Hl|]. simpl fmap.
    destruct (kind_dict_fields id k) as (Hi & Hn & Hf & Hs).
    erewrite T_bind_passed; [|apply first_row_pass; repeat constructor; eauto].
    erewrite T_bind_passed; [|by apply item_run].
    erewrite T_bind_passed; [|done].
    erewrite T_bind_passed; [|by apply item_run]. done.
Qed.

Lemma test_get_owners_run w :
  test_get_owners w =
    match map_to_list (owners w) with
    | [] => (Failed (AssertionError None), w)
    | (_, o) :: _ =>
        if owner_address o is Some _ then (Passed (), w)
        else (Failed (AssertionError None), w)
    end.
Proof.
  unfold test_get_owners.
  rewrite (T_bind_passed _ _ _ _ _ (lift_ok _ _ _ _ (get_owners_run w))).
  destruct (map_to_list (owners w)) as [|[id o] l]; [done|]. simpl fmap.
  destruct (owner_dict_fields id o) as (Hi & Hn & Ha).
  erewrite T_bind_passed; [|apply first_row_pass; repeat constructor; eauto].
  erewrite T_bind_passed; [|by apply item_run].
  erewrite T_bind_passed; [|done].
  erewrite T_bind_passed; [|by apply item_run].
  erewrite T_bind_passed; [|done].
  erewrite T_bind_passed; [|by apply item_run].
  by destruct (owner_address o).
Qed.

Lemma test_get_pets_run w :
  test_get_pets w =
    match map_to_list (pets w) ≫= joined w with
    | [] => (Failed (AssertionError None), w)
    | _ :: _ => (Passed (), w)
    end.
Proof.
  unfold test_get_pets.
  rewrite (T_bind_passed _ _ _ _ _ (lift_ok _ _ _ _ (get_pets_run w))).
  destruct (map_to_list (pets w) ≫= joined w) as [|d rows] eqn:Hrows; [done|].
  assert (d ∈ map_to_list (pets w) ≫= joined w) as Hd by (rewrite Hrows; left).
  apply list_elem_of_bind in Hd as (row & Hd & _).
  pose proof (joined_cases w row) as Hj.
  destruct (kinds w !! pet_kind_id row.2) as [k|];
    [|rewrite Hj in Hd; by apply elem_of_nil in Hd].
  destruct (owners w !! pet_owner_id row.2) as [o|];
    [|rewrite Hj in Hd; by apply elem_of_nil in Hd].
  rewrite Hj in Hd. apply list_elem_of_singleton in Hd as ->.
  destruct (pet_dict_fields row.1 row.2 k o) as (H1 & H2 & H3 & H4 & H5 & H6 & H7).
  erewrite T_bind_passed; [|apply first_row_pass; repeat constructor; eauto].
  erewrite T_bind_passed; [|by apply item_run].
  erewrite T_bind_passed; [|done].
  erewrite T_bind_passed; [|by apply item_run]. done.
Qed.

Lemma joined_nonempty w :
  ref_integrity w → pets w ≠ ∅ → map_to_list (pets w) ≫= joined w ≠ [].
Proof.
  intros Hw Hne Hnil.
  destruct (map_to_list (pets w)) as [|[id p] l] eqn:Hl;
    [by apply map_to_list_empty_iff in Hl|].
  assert (pets w !! id = Some p) as Hp
    by (apply elem_of_map_to_list; rewrite Hl; left).
  destruct (Hw id p Hp) as [[k Hk] [o Ho]].
  pose proof (joined_cases w (id, p)) as Hj. simpl in Hj. rewrite Hk, Ho in Hj.
  rewrite bind_cons, Hj in Hnil. done.
Qed.

(** X17. [test_get_kinds] passes exactly when there is a kind, and
    [test_get_pets], in a world with referential integrity, exactly when
    there is a pet: every field they look for is in every row, the id is
    an [int] and the name a [str].  On an empty table they fail with
    [AssertionError].  Neither writes. *)
Theorem structure_tests (w : world) :
  (test_get_kinds w = (Passed (), w) ↔ kinds w ≠ ∅)
  ∧ (kinds w = ∅ → test_get_kinds w = (Failed (AssertionError None), w))
  ∧ (ref_integrity w → (test_get_pets w = (Passed (), w) ↔ pets w ≠ ∅))
  ∧ (pets w = ∅ → test_get_pets w = (Failed (AssertionError None), w)).
Proof.
  rewrite test_get_kinds_run, test_get_pets_run. split; [|split; [|split]].
  - case_decide; split; done.
  - intros He. by rewrite decide_True.
  - intros Hw. split.
    + intros Hpass He. rewrite He, map_to_list_empty in Hpass. done.
    + intros Hne. pose proof (joined_nonempty w Hw Hne).
      by destruct (map_to_list (pets w) ≫= joined w).
  - intros He. by rewrite He, map_to_list_empty.
Qed.

Lemma structure_tests_witness :
  ref_integrity demo_world
  ∧ test_get_pets demo_world = (Passed (), demo_world)
  ∧ test_get_kinds (mkWorld ∅ ∅ ∅ ∅) = (Failed (AssertionError None), mkWorld ∅ ∅ ∅ ∅).
Proof.
  assert (Hw : ref_integrity demo_world).
  { apply map_Forall_to_list. vm_compute. repeat constructor; eauto. }
  destruct (structure_tests demo_world) as (_ & _ & Hpets & _).
  destruct (structure_tests (mkWorld ∅ ∅ ∅ ∅)) as (_ & Hkinds & _).
  split; [exact Hw|]. split.
  - apply (Hpets Hw). intros He.
    assert (H : pets demo_world !! 1 = Some (mkPet "dorothy" (Some 0) 1 1))
      by (vm_compute; reflexivity).
    rewrite He in H. done.
  - by apply Hkinds.
Defined.

(** X18. [test_get_owners] asks for more than the schema gives: it
    passes when there is an owner and every owner has an address, and it
    fails with [AssertionError] when there is no owner or when no owner
    has an address, although [address] may be NULL. *)
Theorem test_get_owners_needs_address (w : world) :
  (owners w ≠ ∅ →
   (∀ id o, owners w !! id = Some o → is_Some (owner_address o)) →
   test_get_owners w = (Passed (), w))
  ∧ (owners w ≠ ∅ →
     (∀ id o, owners w !! id = Some o → owner_address o = None) →
     test_get_owners w = (Failed (AssertionError None), w))
  ∧ (owners w = ∅ → test_get_owners w = (Failed (AssertionError None), w)).
Proof.
  rewrite test_get_owners_run. split; [|split].
  - intros Hne Hall.
    destruct (map_to_list (owners w)) as [|[id o] l] eqn:Hl;
      [by apply map_to_list_empty_iff in Hl|].
    assert (owners w !! id = Some o) as Ho
      by (apply elem_of_map_to_list; rewrite Hl; left).
    by destruct (Hall id o Ho) as [a ->].
  - intros Hne Hall.
    destruct (map_to_list (owners w)) as [|[id o] l] eqn:Hl;
      [by apply map_to_list_empty_iff in Hl|].
    assert (owners w !! id = Some o) as Ho
      by (apply elem_of_map_to_list; rewrite Hl; left).
    by rewrite (Hall id o Ho).
  - intros He. by rewrite He, map_to_list_empty.
Qed.

Lemma test_get_owners_needs_address_witness :
  test_get_owners demo_world = (Passed (), demo_world)
  ∧ test_get_owners (mkWorld ∅ ∅ {[ 1 := mkOwner "Greg" None ]} ∅)
    = (Failed (AssertionError None), mkWorld ∅ ∅ {[ 1 := mkOwner "Greg" None ]} ∅).
Proof.
  assert (Hdemo : owners demo_world
                  = {[ 1 := mkOwner "Greg" (Some "1365 Maple Ave.") ]})
    by (vm_compute; reflexivity).
  destruct (test_get_owners_needs_address demo_world) as (Hpass & _).
  destruct (test_get_owners_needs_address
              (mkWorld ∅ ∅ {[ 1 := mkOwner "Greg" None ]} ∅)) as (_ & Hfail & _).
  split.
  - apply Hpass; rewrite Hdemo.
    + intros He. by apply (map_non_empty_singleton (M := gmap Z)) in He.
    + intros id o [<- <-]%lookup_singleton_Some. by eexists.
  - apply Hfail; simpl.
    + intros He. by apply (map_non_empty_singleton (M := gmap Z)) in He.
    + by intros id o [<- <-]%lookup_singleton_Some.
Defined.

Lemma new_dict_spec (d : dict) (w : world) :
  ∃ l w',
    new_dict d w = (Ok l, w')
    ∧ heap w' !! l = Some d
    ∧ (∀ l0 d0, heap w !! l0 = Some d0 → heap w' !! l0 = Some d0)
    ∧ kinds w' = kinds w ∧ owners w' = owners w ∧ pets w' = pets w.
Proof.
  eexists _, _. split; [reflexivity|]. simpl.
  split; [apply lookup_insert_eq|]. split; [|done].
  intros l0 d0 Hl0. rewrite lookup_insert_ne; [done|].
  intros <-. apply elem_of_dom_2 in Hl0. by apply is_fresh in Hl0.
Qed.

Lemma Kind_create_spec (name food sound : pyval) (n : string) (w : world) :
  char_value name = Some n →
  ∃ w',
    database.Kind_create name food sound w = (Ok (), w')
    ∧ kinds w' = <[next_id (kinds w) :=
                    mkKind n (char_value food) (char_value sound)]> (kinds w)
    ∧ owners w' = owners w ∧ pets w' = pets w ∧ heap w' = heap w.
Proof. intros Hn. eexists. by rewrite Kind_create_run, Hn. Qed.

Lemma Owner_create_id_spec (name address : pyval) (n : string) (w : world) :
  char_value name = Some n →
  ∃ w',
    Owner_create_id name address w = (Ok (next_id (owners w)), w')
    ∧ owners w' = <[next_id (owners w) := mkOwner n (char_value address)]> (owners w)
    ∧ kinds w' = kinds w ∧ pets w' = pets w ∧ heap w' = heap w.
Proof.
  intros Hn. eexists. unfold Owner_create_id.
  unfold mbind at 1, M_bind, get_world. unfold mbind at 1, M_bind.
  by rewrite Owner_create_run, Hn.
Qed.

(** [create_pet] on a dictionary whose age is already an integer. *)
Lemma create_pet_at (l : loc) (w : world) (d : dict) (n : string) (a k o : Z) :
  heap w !! l = Some d →
  d !! "name" = Some (PStr n) → d !! "age" = Some (PInt a) →
  d !! "kind_id" = Some (PInt k) → d !! "owner_id" = Some (PInt o) →
  is_Some (kinds w !! k) → is_Some (owners w !! o) →
  ∃ w',
    database.create_pet l w = (Ok (), w')
    ∧ pets w' = <[next_id (pets w) := mkPet n (Some a) k o]> (pets w)
    ∧ kinds w' = kinds w ∧ owners w' = owners w ∧ heap w' = heap w.
Proof.
  intros Hl Hn Ha Hk Ho Hk' Ho'.
  assert (deref l w = d) as Hd by (unfold deref; by rewrite Hl).
  assert (coerced_age d = a) as Hc by (unfold coerced_age; by rewrite Ha).
  assert (aged l w = w) as Haged.
  { unfold aged. rewrite Hd, Hc, (insert_id d) by done.
    rewrite insert_id by done. by destruct w. }
  eexists. rewrite create_pet_run, Hd, Hn, Hk, Ho, Hc, Haged.
  by rewrite (Pet_create_ok _ _ _ _ _ n k o).
Qed.

Lemma get_pets_length w :
  ref_integrity w → length (map_to_list (pets w) ≫= joined w) = size (pets w).
Proof.
  intros Hw. apply map_Forall_to_list in Hw. rewrite <- length_map_to_list.
  induction (map_to_list (pets w)) as [|[id p] rows IH]; [done|].
  apply Forall_cons in Hw as [[[k Hk] [o Ho]] Hw]. simpl in Hk, Ho.
  pose proof (joined_cases w (id, p)) as Hj. simpl in Hj. rewrite Hk, Ho in Hj.
  rewrite bind_cons, Hj. simpl. by rewrite IH.
Qed.

Local Ltac step H Hs :=
  rewrite (T_bind_passed _ _ _ _ _ (lift_ok _ _ _ _ Hs)) in H; cbv beta in H.

(** The tables that [setup_test_database] leaves. *)
Lemma setup_test_database_run (w : world) :
  ∃ w',
    setup_test_database w = (Passed (), w')
    ∧ kinds w' = {[ 1 := mkKind "dog" (Some "dogfood") (Some "bark");
                    2 := mkKind "cat" (Some "catfood") (Some "meow") ]}
    ∧ owners w' = {[ 1 := mkOwner "Greg" (Some "1365 Maple Ave.");
                     2 := mkOwner "David" (Some "13 Elm St.") ]}
    ∧ pets w' = {[ 1 := mkPet "dorothy" (Some 9) 1 1;
                   2 := mkPet "suzy" (Some 9) 1 1;
                   3 := mkPet "casey" (Some 9) 2 1;
                   4 := mkPet "heidi" (Some 15) 2 2 ]}
    ∧ (∀ l d, heap w !! l = Some d → heap w' !! l = Some d).
Proof.
  destruct (setup_test_database w) as [v wend] eqn:Hrun.
  unfold setup_test_database in Hrun.
  (* the tables are dropped and created *)
  assert (recreate_tables w = (Ok (), mkWorld (heap w) ∅ ∅ ∅)) as Hs0 by done.
  step Hrun Hs0.
  (* two kinds *)
  destruct (Kind_create_spec (PStr "dog") (PStr "dogfood") (PStr "bark") "dog"
              (mkWorld (heap w) ∅ ∅ ∅) eq_refl) as (w1 & Hs1 & Hk1 & Ho1 & Hp1 & Hh1).
  step Hrun Hs1.
  destruct (Kind_create_spec (PStr "cat") (PStr "catfood") (PStr "meow") "cat"
              w1 eq_refl) as (w2 & Hs2 & Hk2 & Ho2 & Hp2 & Hh2).
  step Hrun Hs2. rewrite Hk1 in Hk2. rewrite Ho1 in Ho2. rewrite Hp1 in Hp2.
  rewrite Hh1 in Hh2. simpl in Hk2, Ho2, Hp2, Hh2. clear Hs1 Hk1 Ho1 Hp1 Hh1.
  (* two owners *)
  destruct (Owner_create_id_spec (PStr "Greg") (PStr "1365 Maple Ave.") "Greg"
              w2 eq_refl) as (w3 & Hs3 & Ho3 & Hk3 & Hp3 & Hh3).
  step Hrun Hs3. rewrite Ho2 in Ho3. rewrite Hk2 in Hk3. rewrite Hp2 in Hp3.
  rewrite Hh2 in Hh3.
  destruct (Owner_create_id_spec (PStr "David") (PStr "13 Elm St.") "David"
              w3 eq_refl) as (w4 & Hs4 & Ho4 & Hk4 & Hp4 & Hh4).
  step Hrun Hs4. rewrite Ho3 in Ho4. rewrite Hk3 in Hk4. rewrite Hp3 in Hp4.
  rewrite Hh3 in Hh4.
  assert (next_id (owners w2) = 1) as Hgreg by (rewrite Ho2; vm_compute; reflexivity).
  assert (next_id (owners w3) = 2) as Hdavid by (rewrite Ho3; vm_compute; reflexivity).
  rewrite Hgreg, Hdavid in Hrun.
  assert (kinds w4 = {[ 1 := mkKind "dog" (Some "dogfood") (Some "bark");
                        2 := mkKind "cat" (Some "catfood") (Some "meow") ]}) as HK
    by (rewrite Hk4; vm_compute; reflexivity).
  assert (owners w4 = {[ 1 := mkOwner "Greg" (Some "1365 Maple Ave.");
                         2 := mkOwner "David" (Some "13 Elm St.") ]}) as HO
    by (rewrite Ho4; vm_compute; reflexivity).
  clear Hs0 Hs2 Hk2 Ho2 Hp2 Hh2 Hs3 Ho3 Hk3 Hp3 Hh3 Hs4 Ho4 Hk4 Hgreg Hdavid.
  (* four dictionaries *)
  destruct (new_dict_spec {[ "name" := PStr "dorothy"; "kind_id" := PInt 1;
                             "age" := PInt 9; "owner_id" := PInt 1 ]} w4)
    as (p1 & w5 & Hs5 & H51 & Hkeep5 & Hk5 & Ho5 & Hp5).
  step Hrun Hs5.
  destruct (new_dict_spec {[ "name" := PStr "suzy"; "kind_id" := PInt 1;
                             "age" := PInt 9; "owner_id" := PInt 1 ]} w5)
    as (p2 & w6 & Hs6 & H62 & Hkeep6 & Hk6 & Ho6 & Hp6).
  step Hrun Hs6.
  destruct (new_dict_spec {[ "name" := PStr "casey"; "kind_id" := PInt 2;
                             "age" := PInt 9; "owner_id" := PInt 1 ]} w6)
    as (p3 & w7 & Hs7 & H73 & Hkeep7 & Hk7 & Ho7 & Hp7).
  step Hrun Hs7.
  destruct (new_dict_spec {[ "name" := PStr "heidi"; "kind_id" := PInt 2;
                             "age" := PInt 15; "owner_id" := PInt 2 ]} w7)
    as (p4 & w8 & Hs8 & H84 & Hkeep8 & Hk8 & Ho8 & Hp8).
  step Hrun Hs8.
  assert (kinds w8 = kinds w4) as Hk by congruence.
  assert (owners w8 = owners w4) as Ho by congruence.
  assert (pets w8 = ∅) as Hp by congruence.
  assert (∀ l d, heap w !! l = Some d → heap w8 !! l = Some d) as Hkeep.
  { intros l d Hl. apply Hkeep8, Hkeep7, Hkeep6, Hkeep5. by rewrite Hh4. }
  pose proof (Hkeep8 _ _ (Hkeep7 _ _ (Hkeep6 _ _ H51))) as H1.
  pose proof (Hkeep8 _ _ (Hkeep7 _ _ H62)) as H2.
  pose proof (Hkeep8 _ _ H73) as H3.
  rewrite HK in Hk. rewrite HO in Ho.
  clear Hs5 H51 Hkeep5 Hk5 Ho5 Hp5 Hs6 H62 Hkeep6 Hk6 Ho6 Hp6
    Hs7 H73 Hkeep7 Hk7 Ho7 Hp7 Hs8 Hkeep8 Hk8 Ho8 Hp8 HK HO Hp4 Hh4.
  (* the loop *)
  assert (∃ w12,
    for_ [p1; p2; p3; p4] (λ pet_data, lift (database.create_pet pet_data)) w8
      = (Passed (), w12)
    ∧ pets w12 = {[ 1 := mkPet "dorothy" (Some 9) 1 1;
                    2 := mkPet "suzy" (Some 9) 1 1;
                    3 := mkPet "casey" (Some 9) 2 1;
                    4 := mkPet "heidi" (Some 15) 2 2 ]}
    ∧ kinds w12 = kinds w8 ∧ owners w12 = owners w8 ∧ heap w12 = heap w8)
    as (w12 & Hloop & Hp12 & Hk12 & Ho12 & Hh12).
  { cbn [for_].
    destruct (create_pet_at p1 w8 _ "dorothy" 9 1 1 H1)
      as (w9 & Hs9 & Hp9 & Hk9 & Ho9 & Hh9);
      [done..|rewrite Hk; vm_compute; eauto|rewrite Ho; vm_compute; eauto|].
    rewrite (T_bind_passed _ _ _ _ _ (lift_ok _ _ _ _ Hs9)).
    rewrite <- Hh9 in H2, H3, H84. rewrite <- Hk9 in Hk. rewrite <- Ho9 in Ho.
    destruct (create_pet_at p2 w9 _ "suzy" 9 1 1 H2)
      as (w10 & Hs10 & Hp10 & Hk10 & Ho10 & Hh10);
      [done..|rewrite Hk; vm_compute; eauto|rewrite Ho; vm_compute; eauto|].
    rewrite (T_bind_passed _ _ _ _ _ (lift_ok _ _ _ _ Hs10)).
    rewrite <- Hh10 in H3, H84. rewrite <- Hk10 in Hk. rewrite <- Ho10 in Ho.
    destruct (create_pet_at p3 w10 _ "casey" 9 2 1 H3)
      as (w11 & Hs11 & Hp11 & Hk11 & Ho11 & Hh11);
      [done..|rewrite Hk; vm_compute; eauto|rewrite Ho; vm_compute; eauto|].
    rewrite (T_bind_passed _ _ _ _ _ (lift_ok _ _ _ _ Hs11)).
    rewrite <- Hh11 in H84. rewrite <- Hk11 in Hk. rewrite <- Ho11 in Ho.
    destruct (create_pet_at p4 w11 _ "heidi" 15 2 2 H84)
      as (w12 & Hs12 & Hp12 & Hk12 & Ho12 & Hh12);
      [done..|rewrite Hk; vm_compute; eauto|rewrite Ho; vm_compute; eauto|].
    rewrite (T_bind_passed _ _ _ _ _ (lift_ok _ _ _ _ Hs12)).
    exists w12. split; [done|]. split; [|split; [congruence|split; congruence]].
    rewrite Hp12, Hp11, Hp10, Hp9, Hp. vm_compute. reflexivity. }
  rewrite (T_bind_passed _ _ _ _ _ Hloop) in Hrun.
  rewrite Hk in Hk12. rewrite Ho in Ho12.
  (* the assertion *)
  assert (ref_integrity w12) as Hw12.
  { unfold ref_integrity. rewrite Hk12, Ho12, Hp12.
    apply map_Forall_to_list. vm_compute. repeat constructor; eauto. }
  rewrite (T_bind_passed _ _ _ _ _ (lift_ok _ _ _ _ (get_pets_run w12))) in Hrun.
  rewrite get_pets_length in Hrun by done.
  assert (size (pets w12) = 4%nat) as Hsize by (rewrite Hp12; vm_compute; reflexivity).
  unfold assert_ in Hrun. rewrite bool_decide_true in Hrun by done.
  injection Hrun as <- <-.
  exists w12. split; [done|]. split; [done|]. split; [done|]. split; [done|].
  intros l d Hl. rewrite Hh12. by apply Hkeep.
Qed.

(** X19. [setup_test_database] does what it asserts: from any world it
    ends without error, its [assert len(get_pets()) == 4] holds, and it
    leaves two kinds, two owners and four pets that satisfy referential
    integrity; the dictionaries that were there are untouched. *)
Theorem setup_test_database_passes (w : world) :
  ∃ w',
    setup_test_database w = (Passed (), w')
    ∧ size (kinds w') = 2%nat ∧ size (owners w') = 2%nat ∧ size (pets w') = 4%nat
    ∧ ref_integrity w'
    ∧ (∃ rows, database.get_pets w' = (Ok rows, w') ∧ length rows = 4%nat)
    ∧ (∀ l d, heap w !! l = Some d → heap w' !! l = Some d).
Proof.
  destruct (setup_test_database_run w) as (w' & Hrun & Hk & Ho & Hp & Hkeep).
  assert (ref_integrity w') as Hw'.
  { unfold ref_integrity. rewrite Hk, Ho, Hp.
    apply map_Forall_to_list. vm_compute. repeat constructor; eauto. }
  assert (size (pets w') = 4%nat) as Hsize by (rewrite Hp; vm_compute; reflexivity).
  exists w'. split; [done|].
  split; [rewrite Hk; vm_compute; reflexivity|].
  split; [rewrite Ho; vm_compute; reflexivity|].
  split; [done|]. split; [done|]. split; [|done].
  eexists. split; [apply get_pets_run|]. by rewrite get_pets_length.
Qed.

(** X20. The self-test of [database.py] passes: from any world, the
    block under [__main__] runs [setup_test_database] and the four tests
    without an [AssertionError] or any other error. *)
Theorem main_passes (w : world) :
  ∃ w', main w = (Passed (), w') ∧ ref_integrity w' ∧ size (pets w') = 4%nat.
Proof.
  destruct (setup_test_database_run w) as (w' & Hrun & Hk & Ho & Hp & Hkeep).
  assert (ref_integrity w') as Hw'.
  { unfold ref_integrity. rewrite Hk, Ho, Hp.
    apply map_Forall_to_list. vm_compute. repeat constructor; eauto. }
  exists w'. split; [|split; [done|rewrite Hp; vm_compute; reflexivity]].
  unfold main. rewrite (T_bind_passed _ _ _ _ _ Hrun).
  assert (test_get_pets w' = (Passed (), w')) as Hpets.
  { rewrite test_get_pets_run.
    assert (pets w' ≠ ∅) as Hne.
    { rewrite Hp. intros He. apply (f_equal size) in He. vm_compute in He. done. }
    pose proof (joined_nonempty w' Hw' Hne).
    by destruct (map_to_list (pets w') ≫= joined w'). }
  rewrite (T_bind_passed _ _ _ _ _ Hpets).
  assert (test_get_kinds w' = (Passed (), w')) as Hkinds.
  { rewrite test_get_kinds_run, decide_False; [done|].
    rewrite Hk. intros He. apply (f_equal size) in He. vm_compute in He. done. }
  rewrite (T_bind_passed _ _ _ _ _ Hkinds).
  assert (test_get_owners w' = (Passed (), w')) as Howners.
  { rewrite test_get_owners_run, Ho.
    assert (∀ id o, ({[ 1 := mkOwner "Greg" (Some "1365 Maple Ave.");
                        2 := mkOwner "David" (Some "13 Elm St.") ]} : gmap Z Owner)
                      !! id = Some o → is_Some (owner_address o)) as Hall.
    { intros id o Hl. apply elem_of_map_to_list in Hl. vm_compute in Hl.
      repeat (apply elem_of_cons in Hl as [Hl|Hl];
              [injection Hl as _ ->; by eexists|]).
      by apply elem_of_nil in Hl. }
    destruct (map_to_list _) as [|[id o] l] eqn:Hl.
    - apply map_to_list_empty_iff in Hl. apply (f_equal size) in Hl.
      vm_compute in Hl. done.
    - assert (({[ 1 := mkOwner "Greg" (Some "1365 Maple Ave.");
                  2 := mkOwner "David" (Some "13 Elm St.") ]} : gmap Z Owner)
                !! id = Some o) as Hid
        by (apply elem_of_map_to_list; rewrite Hl; left).
      by destruct (Hall id o Hid) as [a ->]. }
  rewrite (T_bind_passed _ _ _ _ _ Howners). done.
Qed.

(** ** Further properties of the route handlers *)





Lemma deref_form (form : gmap string string) (w : world) (key : string) :
  deref (fresh (dom (heap w)))
    (set_heap (<[fresh (dom (heap w)) := PStr <$> form]> (heap w)) w) !! key
  = PStr <$> form !! key.
Proof.
  unfold deref, set_heap. cbn [heap]. rewrite lookup_insert_eq.
  exact (lookup_fmap PStr form key).
Qed.

Lemma deref_form_Some (form : gmap string string) (w : world) (key v : string) :
  form !! key = Some v →
  deref (fresh (dom (heap w)))
    (set_heap (<[fresh (dom (heap w)) := PStr <$> form]> (heap w)) w) !! key
  = Some (PStr v).
Proof. intros H. by rewrite deref_form, H. Qed.

(** X23. A submitted kind or owner form is stored as it is: when the
    form has the fields the handler reads, [post_kind_create] (resp.
    [post_owner_create]) adds one row with the submitted texts under a new
    id, leaves the other tables alone and redirects to the list page. *)
Theorem post_parent_create_stores_form (form : gmap string string) (w : world) :
  (∀ name food sound,
     form !! "name" = Some name → form !! "food" = Some food →
     form !! "sound" = Some sound →
     ∃ w',
       app.post_kind_create app.database form w =
         (Ok (app.Redirect (app.url_for "get_kind_list") 302), w')
       ∧ kinds w' = <[next_id (kinds w) := mkKind name (Some food) (Some sound)]>
                      (kinds w)
       ∧ owners w' = owners w ∧ pets w' = pets w)
  ∧ (∀ name address,
       form !! "name" = Some name → form !! "address" = Some address →
       ∃ w',
         app.post_owner_create app.database form w =
           (Ok (app.Redirect (app.url_for "get_owner_list") 302), w')
         ∧ owners w' = <[next_id (owners w) := mkOwner name (Some address)]>
                         (owners w)
         ∧ kinds w' = kinds w ∧ pets w' = pets w).
Proof.
  split.
  - intros name food sound Hn Hf Hs. eexists.
    unfold app.post_kind_create. unfold mbind at 1, M_bind, app.dict_of_form.
    unfold mbind at 1, M_bind. simpl app.create_kind.
    rewrite create_kind_run, (deref_form_Some _ _ _ _ Hn),
      (deref_form_Some _ _ _ _ Hf), (deref_form_Some _ _ _ _ Hs).
    cbv beta iota. rewrite Kind_create_run. done.
  - intros name address Hn Ha. eexists.
    unfold app.post_owner_create. unfold mbind at 1, M_bind, app.dict_of_form.
    unfold mbind at 1, M_bind. simpl app.create_owner.
    rewrite create_owner_run, (deref_form_Some _ _ _ _ Hn),
      (deref_form_Some _ _ _ _ Ha).
    cbv beta iota. rewrite Owner_create_run. done.
Qed.

Lemma post_parent_create_stores_form_witness :
  ∃ w',
    app.post_kind_create app.database
      {[ "name" := "cat"; "food" := "catfood"; "sound" := "meow" ]} demo_world =
      (Ok (app.Redirect (app.url_for "get_kind_list") 302), w')
    ∧ kinds w' = <[next_id (kinds demo_world) :=
                    mkKind "cat" (Some "catfood") (Some "meow")]> (kinds demo_world).
Proof.
  destruct (post_parent_create_stores_form
              {[ "name" := "cat"; "food" := "catfood"; "sound" := "meow" ]} demo_world)
    as [Hkind _].
  destruct (Hkind "cat" "catfood" "meow") as (w' & Hrun & Hk & _);
    [vm_compute; reflexivity..|].
  exists w'. split; [exact Hrun|exact Hk].
Defined.




Lemma then_ret_world {A B} (m : M A) (r : B) (w : world) :
  ((m ≫= λ _, mret r) w).2 = (m w).2.
Proof. unfold mbind, M_bind. by destruct (m w) as [[a|e] w']. Qed.

Lemma ref_integrity_set_heap h w : ref_integrity w → ref_integrity (set_heap h w).
Proof. done. Qed.

(** X26. Referential integrity is an invariant of the application too:
    every handler that writes, run with the data-access layer of
    [database.py], leaves a world with referential integrity when it
    starts from one, whether it answers or ends in an error. *)
Theorem handlers_keep_integrity (id : Z) (form : gmap string string) (w : world) :
  ref_integrity w →
  ref_integrity (app.post_create app.database form w).2
  ∧ ref_integrity (app.post_update app.database id form w).2
  ∧ ref_integrity (app.get_delete app.database id w).2
  ∧ ref_integrity (app.post_kind_create app.database form w).2
  ∧ ref_integrity (app.post_kind_update app.database id form w).2
  ∧ ref_integrity (app.get_kind_delete app.database id w).2
  ∧ ref_integrity (app.post_owner_create app.database form w).2
  ∧ ref_integrity (app.post_owner_update app.database id form w).2
  ∧ ref_integrity (app.get_owner_delete app.database id w).2.
Proof.
  intros Hw.
  pose proof (ref_integrity_set_heap
                (<[fresh (dom (heap w)) := PStr <$> form]> (heap w)) w Hw) as Hw1.
  unfold app.post_create, app.post_update, app.get_delete, app.post_kind_create,
    app.post_kind_update, app.post_owner_create, app.post_owner_update.
  split_and!.
  - unfold mbind at 1, M_bind, app.dict_of_form. rewrite then_ret_world.
    by apply (run_integrity (CreatePet _)).
  - unfold mbind at 1, M_bind, app.dict_of_form. rewrite then_ret_world.
    by apply (run_integrity (UpdatePet id _)).
  - rewrite then_ret_world. by apply (run_integrity (DeletePet id)).
  - unfold mbind at 1, M_bind, app.dict_of_form. rewrite then_ret_world.
    by apply (run_integrity (CreateKind _)).
  - unfold mbind at 1, M_bind, app.dict_of_form. rewrite then_ret_world.
    by apply (run_integrity (UpdateKind id _)).
  - pose proof (run_integrity (DeleteKind id) w Hw) as Hd. simpl in Hd.
    unfold app.get_kind_delete. unfold mbind at 1, M_bind, try_except.
    unfold mbind at 1, M_bind. simpl app.delete_kind.
    by destruct (database.delete_kind id w) as [[[]|e] w'].
  - unfold mbind at 1, M_bind, app.dict_of_form. rewrite then_ret_world.
    by apply (run_integrity (CreateOwner _)).
  - unfold mbind at 1, M_bind, app.dict_of_form. rewrite then_ret_world.
    by apply (run_integrity (UpdateOwner id _)).
  - pose proof (run_integrity (DeleteOwner id) w Hw) as Hd. simpl in Hd.
    unfold app.get_owner_delete. unfold mbind at 1, M_bind, try_except.
    unfold mbind at 1, M_bind. simpl app.delete_owner.
    by destruct (database.delete_owner id w) as [[[]|e] w'].
Qed.

Lemma handlers_keep_integrity_witness :
  ref_integrity demo_world
  ∧ ref_integrity (app.get_kind_delete app.database 1 demo_world).2.
Proof.
  assert (Hw : ref_integrity demo_world).
  { apply map_Forall_to_list. vm_compute. repeat constructor; eauto. }
  split; [exact Hw|].
  destruct (handlers_keep_integrity 1 rex_form demo_world Hw)
    as (_ & _ & _ & _ & _ & H & _).
  exact H.
Defined.

(** ** Further instances *)


Lemma get_pets_inner_join_witness :
  ∃ rows d,
    database.get_pets demo_world = (Ok rows, demo_world)
    ∧ d ∈ rows ∧ d !! "id" = Some (PInt 1).
Proof.
  destruct (get_pets_inner_join demo_world) as (rows & Hrun & _ & Hiff).
  destruct (proj2 (Hiff 1)) as (d & Hd & Hid).
  - exists (mkPet "dorothy" (Some 0) 1 1). split; [vm_compute; reflexivity|].
    split; vm_compute; eauto.
  - exists rows, d. split; [exact Hrun|]. split; [exact Hd|exact Hid].
Defined.

Lemma setup_test_database_passes_witness :
  heap fresh_world !! 1%positive = Some dog
  ∧ ∃ w',
      setup_test_database fresh_world = (Passed (), w')
      ∧ size (pets w') = 4%nat
      ∧ heap w' !! 1%positive = Some dog.
Proof.
  assert (H : heap fresh_world !! 1%positive = Some dog) by (vm_compute; reflexivity).
  split; [exact H|].
  destruct (setup_test_database_passes fresh_world)
    as (w' & Hrun & _ & _ & Hsize & _ & _ & Hkeep).
  exists w'. split; [exact Hrun|]. split; [exact Hsize|]. exact (Hkeep _ _ H).
Defined.
